(** * Session lifecycle of the Recall MCP HTTP server

    A shallow embedding of the two session-keeping variants of the server:

    - [Server]: the TypeScript server, one [transports] object whose
      values are records [{ transport, toolkit, lastActivity }];
    - [ThreeMaps]: the compiled JavaScript server, which keeps the three
      objects [sessions], [toolkits] and [lastActivity] side by side.

    [Stateless] embeds the servers that keep no session and build one
    transport per request, and [Variants] relates the two session-keeping
    servers to each other.

    Each Express handler is a function from the server state, the request
    and the answers of the environment (clock, UUID generator, process
    environment, SDK calls) to the new state and the response.  A handler
    is one step of the server: before it delegates to the transport, the
    only place where it yields is [await toolkit.connect(transport)], after
    the lookup and before the registration under a key that it alone
    holds. *)

From Stdlib Require Import ZArith Lia.
From stdpp Require Import gmap strings list fin_maps.

Local Open Scope string_scope.
Local Open Scope Z_scope.

(** ** JavaScript helpers *)

Module Js.

(** [s.includes(sub)]: [sub] occurs in [s] as a substring. *)
Fixpoint includes (s sub : string) : bool :=
  String.prefix sub s ||
  match s with
  | EmptyString => false
  | String _ rest => includes rest sub
  end.

(** [h || ""] for a header that may be undefined. *)
Definition or_empty (h : option string) : string :=
  match h with
  | Some v => v
  | None => ""
  end.

(** Truthiness of a value that is a string or undefined: only undefined and
    the empty string are falsy. *)
Definition truthy_string (h : option string) : bool :=
  match h with
  | Some "" => false
  | Some _ => true
  | None => false
  end.

(** The property names every object created by [{}] inherits from
    [Object.prototype].  [o[k]] for such a [k] is a function (or, for
    [__proto__], [Object.prototype] itself) unless [o] has an own property
    of that name. *)
Definition object_prototype_names : list string :=
  [ "constructor"; "__proto__"; "hasOwnProperty"; "isPrototypeOf";
    "propertyIsEnumerable"; "toLocaleString"; "toString"; "valueOf";
    "__defineGetter__"; "__defineSetter__"; "__lookupGetter__";
    "__lookupSetter__" ].

Definition inherited (k : string) : bool :=
  bool_decide (k ∈ object_prototype_names).

(** [randomUUID()] returns the 36-character textual form of a UUID. *)
Definition is_uuid (u : string) : bool :=
  bool_decide (String.length u = 36%nat).

End Js.

(** ** Requests, responses and the environment *)

Module Http.

#[warnings="-register-all"]
Inductive json :=
  | JNull
  | JNum (n : Z)
  | JStr (s : string)
  | JObj (fields : list (string * json)).

(** [{ jsonrpc: "2.0", error: { code, message }, id: null }] *)
Definition jsonrpc_error (code : Z) (message : string) : json :=
  JObj [ ("jsonrpc", JStr "2.0");
         ("error", JObj [ ("code", JNum code); ("message", JStr message) ]);
         ("id", JNull) ].

(** [req.method].  [handleSessionRequest] sits behind [app.get], which also
    serves HEAD, and [app.delete]. *)
Inductive Method := GET | POST | DELETE | HEAD.

Record Request := mkRequest {
  method : Method;                 (* req.method *)
  mcp_session_id : option string;  (* req.headers["mcp-session-id"] *)
  content_type : option string;    (* req.get("Content-Type") *)
  accept : option string           (* req.get("Accept") *)
}.

(** What [transport.handleRequest] does, as far as the handlers see it. *)
Inductive HandleResult :=
  | Completes
  | Throws (headersSent : bool).

(** The answers of the environment during one handler call or timer tick. *)
Record Env := mkEnv {
  now : Z;                              (* Date.now() *)
  uuid : string;                        (* randomUUID() *)
  RECALL_PRIVATE_KEY : option string;   (* process.env.RECALL_PRIVATE_KEY *)
  connect_ok : bool;                    (* toolkit.connect(transport) resolves *)
  handle : HandleResult;                (* transport.handleRequest(...) *)
  close_notifies : bool                 (* transport.close() calls its onclose *)
}.

Inductive Outcome :=
  | Replied (status : Z) (body : json)  (* res.status(n).json(body) *)
  | Handled (t : nat)                   (* transport t answered the request *)
  | Aborted.                            (* failure after the headers went out: logged only *)

Record Response := mkResponse {
  headers : list (string * string);     (* the res.setHeader calls, in order *)
  outcome : Outcome
}.

Definition setHeader (k v : string) (hs : list (string * string)) :=
  (hs ++ [(k, v)])%list.

Definition has_header (k : string) (r : Response) : bool :=
  bool_decide (k ∈ (headers r).*1).

(** The response announces the streaming mode. *)
Definition streaming (r : Response) : Prop :=
  ("Content-Type", "text/event-stream") ∈ headers r ∧
  ("Cache-Control", "no-cache") ∈ headers r ∧
  ("Connection", "keep-alive") ∈ headers r.

Definition sse_headers (hs : list (string * string)) : list (string * string) :=
  setHeader "Connection" "keep-alive"
    (setHeader "Cache-Control" "no-cache"
       (setHeader "Content-Type" "text/event-stream" hs)).

Definition internal_error : Outcome :=
  Replied 500 (jsonrpc_error (-32603) "Internal server error").

(** The [catch] of the handlers: reply 500 unless the headers are out. *)
Definition caught (headersSent : bool) : Outcome :=
  if headersSent then Aborted else internal_error.

(** [await transport.handleRequest(req, res, ...)] on the transport object
    [t], inside the handler's [try]. *)
Definition delegate (e : Env) (t : nat) : Outcome :=
  match handle e with
  | Completes => Handled t
  | Throws sent => caught sent
  end.

End Http.

(** ** The TypeScript server: one [transports] object *)

Module Server.
Import Js Http.

(** [{ transport, toolkit, lastActivity }]; the two objects are named by
    their heap addresses. *)
Record SessionData := mkSession {
  transport : nat;
  toolkit : nat;
  lastActivity : Z
}.

Record State := mkState {
  transports : gmap string SessionData;  (* own properties of [transports] *)
  prototype_lastActivity : option Z;     (* Object.prototype.lastActivity, once written *)
  onclose : gmap nat string;             (* transport ↦ the sessionId its onclose closure captured *)
  closed : list nat;                     (* close() calls so far, latest first *)
  issued : list string;                  (* randomUUID() results so far, latest first *)
  heap_next : nat                        (* next unused object address *)
}.

Definition init : State := mkState ∅ None ∅ [] [] 0.

Definition set_transports (f : gmap string SessionData → gmap string SessionData)
    (s : State) : State :=
  mkState (f (transports s)) (prototype_lastActivity s) (onclose s)
          (closed s) (issued s) (heap_next s).

Definition set_prototype_lastActivity (v : Z) (s : State) : State :=
  mkState (transports s) (Some v) (onclose s) (closed s) (issued s) (heap_next s).

Definition set_onclose (t : nat) (k : string) (s : State) : State :=
  mkState (transports s) (prototype_lastActivity s) (<[t := k]> (onclose s))
          (closed s) (issued s) (heap_next s).

Definition log_close (t : nat) (s : State) : State :=
  mkState (transports s) (prototype_lastActivity s) (onclose s)
          (t :: closed s) (issued s) (heap_next s).

Definition log_uuid (u : string) (s : State) : State :=
  mkState (transports s) (prototype_lastActivity s) (onclose s)
          (closed s) (u :: issued s) (heap_next s).

(** [new C(...)]: the object gets address [heap_next]. *)
Definition alloc (s : State) : State :=
  mkState (transports s) (prototype_lastActivity s) (onclose s)
          (closed s) (issued s) (S (heap_next s)).

(** The value of [transports[k]].  An own property shadows the prototype;
    otherwise the lookup finds what [Object.prototype] holds under [k]. *)
Inductive Value :=
  | Session (d : SessionData)
  | Builtin (name : string)
  | Num (n : Z)
  | Undefined.

Definition get (s : State) (k : string) : Value :=
  match transports s !! k with
  | Some d => Session d
  | None =>
      if inherited k then Builtin k
      else if bool_decide (k = "lastActivity") then
        match prototype_lastActivity s with
        | Some n => Num n
        | None => Undefined
        end
      else Undefined
  end.

Definition truthy (v : Value) : bool :=
  match v with
  | Session _ | Builtin _ => true
  | Num n => negb (n =? 0)
  | Undefined => false
  end.

(** [sessionId && transports[sessionId]]: the key and the value found when
    the test is truthy. *)
Definition lookup_session (s : State) (sessionId : option string)
    : option (string * Value) :=
  match sessionId with
  | Some k =>
      if truthy_string sessionId && truthy (get s k) then Some (k, get s k)
      else None
  | None => None
  end.

(** [sessionData.lastActivity = Date.now()].  On a session record the field
    is overwritten; on a built-in object a property is added, which is
    visible to the store only when the object is [Object.prototype]; on a
    number the assignment throws (module code is strict).  [None] is the
    TypeError. *)
Definition touch (s : State) (k : string) (v : Value) (t : Z) : option State :=
  match v with
  | Session d =>
      Some (set_transports
              <[k := mkSession (transport d) (toolkit d) t]> s)
  | Builtin name =>
      Some (if bool_decide (name = "__proto__")
            then set_prototype_lastActivity t s else s)
  | Num _ => None
  | Undefined => None
  end.

(** [sessionData.transport]: undefined unless [sessionData] is a session
    record, and then a method call on it throws. *)
Definition transport_of (v : Value) : option nat :=
  match v with
  | Session d => Some (transport d)
  | _ => None
  end.

(** [createToolkit()]: throws ([None]) when the key is missing or empty,
    otherwise returns the new toolkit object. *)
Definition createToolkit (e : Env) (addr : nat) : option nat :=
  if truthy_string (RECALL_PRIVATE_KEY e) then Some addr else None.

(** The onclose closure installed on transport [t], if any, runs
    [delete transports[sessionId]]. *)
Definition fire_onclose (t : nat) (s : State) : State :=
  match onclose s !! t with
  | Some k => set_transports (delete k) s
  | None => s
  end.

(** [transport.close()] *)
Definition close (e : Env) (t : nat) (s : State) : State :=
  if close_notifies e then fire_onclose t (log_close t s) else log_close t s.

(** Session resolution of the POST handler (the [if]/[else] before the
    content-type check).  [inl] is an exception on the way, with the state
    it leaves; [inr] is the state, the headers set and [sessionData].
    [transports[sessionId] = sessionData] writes an own property, the key
    being a UUID. *)
Definition resolve (s : State) (r : Request) (e : Env)
    : State + (State * list (string * string) * Value) :=
  match lookup_session s (mcp_session_id r) with
  | Some (k, v) =>
      match touch s k v (now e) with
      | Some s' => inr (s', [], v)
      | None => inl s
      end
  | None =>
      let sessionId := uuid e in
      let t := heap_next s in
      let s1 := alloc (log_uuid sessionId s) in
      match createToolkit e (heap_next s1) with
      | None => inl s1
      | Some tk =>
          let s2 := alloc s1 in
          if connect_ok e then
            let sessionData := mkSession t tk (now e) in
            inr (set_onclose t sessionId
                   (set_transports <[sessionId := sessionData]> s2),
                 setHeader "Mcp-Session-Id" sessionId [],
                 Session sessionData)
          else inl s2
      end
  end.

Definition bad_content_type : Outcome :=
  Replied 415 (jsonrpc_error (-32000) "Content-Type must be application/json").

Definition bad_session : Outcome :=
  Replied 400 (jsonrpc_error (-32000) "Invalid or missing session ID").

Definition bad_accept : Outcome :=
  Replied 406
    (jsonrpc_error (-32000) "Accept header must include text/event-stream").

Definition terminated : Outcome :=
  Replied 200 (JObj [("status", JStr "ok"); ("message", JStr "Session terminated")]).

(** [sessionData.transport.handleRequest(...)] inside the [try]. *)
Definition hand_over (e : Env) (v : Value) : Outcome :=
  match transport_of v with
  | Some t => delegate e t
  | None => internal_error
  end.

(** [app.post("/mcp", ...)] *)
Definition post (s : State) (r : Request) (e : Env) : State * Response :=
  match resolve s r e with
  | inl s' => (s', mkResponse [] internal_error)
  | inr (s', hs, sessionData) =>
      if negb (includes (or_empty (content_type r)) "application/json")
      then (s', mkResponse hs bad_content_type)
      else
        let hs' :=
          if includes (or_empty (accept r)) "text/event-stream"
          then sse_headers hs
          else setHeader "Content-Type" "application/json" hs in
        (s', mkResponse hs' (hand_over e sessionData))
  end.

(** [handleSessionRequest], behind [app.get] and [app.delete]. *)
Definition handleSessionRequest (s : State) (r : Request) (e : Env)
    : State * Response :=
  match lookup_session s (mcp_session_id r) with
  | None => (s, mkResponse [] bad_session)
  | Some (sessionId, sessionData) =>
      match touch s sessionId sessionData (now e) with
      | None => (s, mkResponse [] internal_error)
      | Some s1 =>
          match method r with
          | DELETE =>
              match transport_of sessionData with
              | None => (s1, mkResponse [] internal_error)
              | Some t =>
                  (set_transports (delete sessionId) (close e t s1),
                   mkResponse [] terminated)
              end
          | GET =>
              if negb (includes (or_empty (accept r)) "text/event-stream")
              then (s1, mkResponse [] bad_accept)
              else (s1, mkResponse (sse_headers []) (hand_over e sessionData))
          | _ => (s1, mkResponse [] (hand_over e sessionData))
          end
      end
  end.

(** The cleanup job. *)
Definition sessionTimeout : Z := 30 * 60 * 1000.
Definition sweepInterval : Z := 5 * 60 * 1000.

Definition expired (e : Env) (sessionData : SessionData) : bool :=
  now e - lastActivity sessionData >? sessionTimeout.

Definition sweep_entry (e : Env) (s : State) (entry : string * SessionData)
    : State :=
  if expired e entry.2
  then set_transports (delete entry.1) (close e (transport entry.2) s)
  else s.

(** The callback of [setInterval]: it walks [Object.entries(transports)],
    a snapshot taken before the loop. *)
Definition sweep (s : State) (e : Env) : State :=
  foldl (sweep_entry e) s (map_to_list (transports s)).

(** What can happen to the server. *)
Inductive Event :=
  | Post (r : Request) (e : Env)
  | SessionRequest (r : Request) (e : Env)
  | Tick (e : Env)
  | TransportClosed (t : nat).   (* the SDK runs transport t's onclose *)

Definition step (s : State) (ev : Event) : State :=
  match ev with
  | Post r e => (post s r e).1
  | SessionRequest r e => (handleSessionRequest s r e).1
  | Tick e => sweep s e
  | TransportClosed t => fire_onclose t s
  end.

Definition run (s : State) (evs : list Event) : State := foldl step s evs.

(** The environment is well behaved when [randomUUID] returns UUIDs. *)
Definition wf_event (ev : Event) : Prop :=
  match ev with
  | Post _ e => is_uuid (uuid e) = true
  | _ => True
  end.

Definition reachable (s : State) : Prop :=
  ∃ evs, Forall wf_event evs ∧ s = run init evs.

(** Freshness of the generator along a run: whenever the POST handler
    calls [randomUUID], the result was never returned before. *)
Fixpoint fresh (s : State) (evs : list Event) : Prop :=
  match evs with
  | [] => True
  | ev :: rest =>
      match ev with
      | Post r e =>
          is_uuid (uuid e) = true ∧
          (lookup_session s (mcp_session_id r) = None → uuid e ∉ issued s)
      | _ => True
      end ∧ fresh (step s ev) rest
  end.

(** What every reachable state satisfies: the keys of the store are UUIDs
    handed out by [randomUUID], and the onclose closure of a registered
    transport deletes the key the transport is registered under. *)
Record Inv (s : State) : Prop := mkInv {
  inv_keys : ∀ k d, transports s !! k = Some d → is_uuid k = true;
  inv_hook : ∀ k d, transports s !! k = Some d →
                    onclose s !! transport d = Some k;
  inv_heap : ∀ t k, onclose s !! t = Some k → (t < heap_next s)%nat;
  inv_issued : ∀ k d, transports s !! k = Some d → k ∈ issued s
}.

(** [s'] is [s] with some sessions removed and some closes logged. *)
Record shrinks (s s' : State) : Prop := mkShrinks {
  shrinks_transports : transports s' ⊆ transports s;
  shrinks_prototype : prototype_lastActivity s' = prototype_lastActivity s;
  shrinks_onclose : onclose s' = onclose s;
  shrinks_issued : issued s' = issued s;
  shrinks_heap : heap_next s' = heap_next s
}.

End Server.

(** ** The compiled JavaScript server: [sessions], [toolkits], [lastActivity] *)

Module ThreeMaps.
Import Js Http.

Record State := mkState {
  sessions : gmap string nat;       (* own properties: sessionId ↦ transport *)
  toolkits : gmap string nat;       (* own properties: sessionId ↦ toolkit *)
  lastActivity : gmap string Z;     (* own properties: sessionId ↦ Date.now() *)
  onclose : gmap nat string;        (* transport ↦ the newSessionId its onclose closure captured *)
  closed : list nat;                (* close() calls so far, latest first *)
  issued : list string;             (* randomUUID() results so far, latest first *)
  heap_next : nat                   (* next unused object address *)
}.

Definition init : State := mkState ∅ ∅ ∅ ∅ [] [] 0.

Definition set_sessions (f : gmap string nat → gmap string nat) (s : State) :=
  mkState (f (sessions s)) (toolkits s) (lastActivity s) (onclose s)
          (closed s) (issued s) (heap_next s).

Definition set_toolkits (f : gmap string nat → gmap string nat) (s : State) :=
  mkState (sessions s) (f (toolkits s)) (lastActivity s) (onclose s)
          (closed s) (issued s) (heap_next s).

Definition set_lastActivity (f : gmap string Z → gmap string Z) (s : State) :=
  mkState (sessions s) (toolkits s) (f (lastActivity s)) (onclose s)
          (closed s) (issued s) (heap_next s).

Definition set_onclose (t : nat) (k : string) (s : State) : State :=
  mkState (sessions s) (toolkits s) (lastActivity s) (<[t := k]> (onclose s))
          (closed s) (issued s) (heap_next s).

Definition log_close (t : nat) (s : State) : State :=
  mkState (sessions s) (toolkits s) (lastActivity s) (onclose s)
          (t :: closed s) (issued s) (heap_next s).

Definition log_uuid (u : string) (s : State) : State :=
  mkState (sessions s) (toolkits s) (lastActivity s) (onclose s)
          (closed s) (u :: issued s) (heap_next s).

Definition alloc (s : State) : State :=
  mkState (sessions s) (toolkits s) (lastActivity s) (onclose s)
          (closed s) (issued s) (S (heap_next s)).

(** The value of [sessions[k]]. *)
Inductive Value :=
  | Transport (t : nat)
  | Builtin (name : string)
  | Undefined.

Definition get (s : State) (k : string) : Value :=
  match sessions s !! k with
  | Some t => Transport t
  | None => if inherited k then Builtin k else Undefined
  end.

Definition truthy (v : Value) : bool :=
  match v with
  | Transport _ | Builtin _ => true
  | Undefined => false
  end.

(** [sessionId && sessions[sessionId]] *)
Definition lookup_session (s : State) (sessionId : option string)
    : option (string * Value) :=
  match sessionId with
  | Some k =>
      if truthy_string sessionId && truthy (get s k) then Some (k, get s k)
      else None
  | None => None
  end.

(** [lastActivity[k] = Date.now()]: an own property is written or created,
    except under the name [__proto__], whose inherited setter ignores a
    number. *)
Definition touch (k : string) (t : Z) (s : State) : State :=
  if bool_decide (k = "__proto__") then s
  else set_lastActivity <[k := t]> s.

(** The three [delete] statements. *)
Definition forget (k : string) (s : State) : State :=
  set_lastActivity (delete k) (set_toolkits (delete k) (set_sessions (delete k) s)).

Definition createToolkit (e : Env) (addr : nat) : option nat :=
  if truthy_string (RECALL_PRIVATE_KEY e) then Some addr else None.

Definition fire_onclose (t : nat) (s : State) : State :=
  match onclose s !! t with
  | Some k => forget k s
  | None => s
  end.

Definition close (e : Env) (t : nat) (s : State) : State :=
  if close_notifies e then fire_onclose t (log_close t s) else log_close t s.

(** Session resolution of the POST handler; [inl] is an exception. *)
Definition resolve (s : State) (r : Request) (e : Env)
    : State + (State * list (string * string) * Value) :=
  match lookup_session s (mcp_session_id r) with
  | Some (k, v) => inr (touch k (now e) s, [], v)
  | None =>
      let newSessionId := uuid e in
      let t := heap_next s in
      let s1 := alloc (log_uuid newSessionId s) in
      match createToolkit e (heap_next s1) with
      | None => inl s1
      | Some tk =>
          let s2 := alloc s1 in
          if connect_ok e then
            inr (set_onclose t newSessionId
                   (set_lastActivity <[newSessionId := now e]>
                      (set_toolkits <[newSessionId := tk]>
                         (set_sessions <[newSessionId := t]> s2))),
                 setHeader "Mcp-Session-Id" newSessionId [],
                 Transport t)
          else inl s2
      end
  end.

Definition bad_content_type : Outcome :=
  Replied 415 (jsonrpc_error (-32000) "Content-Type must be application/json").

Definition bad_session : Outcome :=
  Replied 400 (jsonrpc_error (-32000) "Invalid or missing session ID").

Definition bad_accept : Outcome :=
  Replied 406
    (jsonrpc_error (-32000) "Accept header must include text/event-stream").

Definition terminated : Outcome :=
  Replied 200 (JObj [("status", JStr "ok")]).

(** [transport.handleRequest(...)]: a built-in object has no such method,
    the call throws and the handler's [catch] answers. *)
Definition hand_over (e : Env) (v : Value) : Outcome :=
  match v with
  | Transport t => delegate e t
  | _ => internal_error
  end.

(** [app.post("/mcp", ...)] *)
Definition post (s : State) (r : Request) (e : Env) : State * Response :=
  match resolve s r e with
  | inl s' => (s', mkResponse [] internal_error)
  | inr (s', hs, transport) =>
      if negb (includes (or_empty (content_type r)) "application/json")
      then (s', mkResponse hs bad_content_type)
      else
        let hs' :=
          if includes (or_empty (accept r)) "text/event-stream"
          then sse_headers hs
          else setHeader "Content-Type" "application/json" hs in
        (s', mkResponse hs' (hand_over e transport))
  end.

(** [handleSessionRequest] with the [.catch] of its two routes. *)
Definition handleSessionRequest (s : State) (r : Request) (e : Env)
    : State * Response :=
  match lookup_session s (mcp_session_id r) with
  | None => (s, mkResponse [] bad_session)
  | Some (sessionId, transport) =>
      let s1 := touch sessionId (now e) s in
      match method r with
      | DELETE =>
          match transport with
          | Transport t =>
              (forget sessionId (close e t s1), mkResponse [] terminated)
          | _ => (s1, mkResponse [] internal_error)
          end
      | GET =>
          if negb (includes (or_empty (accept r)) "text/event-stream")
          then (s1, mkResponse [] bad_accept)
          else (s1, mkResponse (sse_headers []) (hand_over e transport))
      | _ => (s1, mkResponse [] (hand_over e transport))
      end
  end.

Definition sessionTimeout : Z := 30 * 60 * 1000.
Definition sweepInterval : Z := 5 * 60 * 1000.

(** [now - lastActivity[id] > timeout]; the difference is NaN, and the test
    false, when [lastActivity] has no number under [id]. *)
Definition expired (e : Env) (s : State) (id : string) : bool :=
  match lastActivity s !! id with
  | Some t => now e - t >? sessionTimeout
  | None => false
  end.

(** One round of the [forEach]; [None] is the TypeError of
    [sessions[id].close()] on a missing entry. *)
Definition sweep_entry (e : Env) (s : State) (id : string) : option State :=
  if expired e s id then
    match sessions s !! id with
    | Some t => Some (forget id (close e t s))
    | None => None
    end
  else Some s.

(** The callback of [setInterval], over [Object.keys(sessions)]; a TypeError
    ends the loop and leaves the state as the rounds before it made it. *)
Fixpoint sweep_from (e : Env) (s : State) (ids : list string) : State :=
  match ids with
  | [] => s
  | id :: rest =>
      match sweep_entry e s id with
      | Some s' => sweep_from e s' rest
      | None => s
      end
  end.

Definition sweep (s : State) (e : Env) : State :=
  sweep_from e s (map_to_list (sessions s)).*1.

Inductive Event :=
  | Post (r : Request) (e : Env)
  | SessionRequest (r : Request) (e : Env)
  | Tick (e : Env)
  | TransportClosed (t : nat).

Definition step (s : State) (ev : Event) : State :=
  match ev with
  | Post r e => (post s r e).1
  | SessionRequest r e => (handleSessionRequest s r e).1
  | Tick e => sweep s e
  | TransportClosed t => fire_onclose t s
  end.

Definition run (s : State) (evs : list Event) : State := foldl step s evs.

(** The three objects have the same own keys. *)
Definition same_keys (s : State) : Prop :=
  dom (sessions s) = dom (toolkits s) ∧ dom (sessions s) = dom (lastActivity s).

Definition wf_event (ev : Event) : Prop :=
  match ev with
  | Post _ e => is_uuid (uuid e) = true
  | _ => True
  end.

Definition reachable (s : State) : Prop :=
  ∃ evs, Forall wf_event evs ∧ s = run init evs.

(** What every reachable state satisfies. *)
Record Inv (s : State) : Prop := mkInv {
  inv_sessions : ∀ k t, sessions s !! k = Some t → is_uuid k = true;
  inv_onclose : ∀ k t, sessions s !! k = Some t → onclose s !! t = Some k;
  inv_alloc : ∀ t k, onclose s !! t = Some k → (t < heap_next s)%nat;
  inv_toolkits : ∀ k t, sessions s !! k = Some t → is_Some (toolkits s !! k);
  inv_lastActivity : ∀ k t, sessions s !! k = Some t →
                            is_Some (lastActivity s !! k)
}.

(** The event is not a request whose session ID is a property name of
    [Object.prototype]. *)
Definition plain_event (ev : Event) : Prop :=
  match ev with
  | Post r _ | SessionRequest r _ =>
      ∀ k, mcp_session_id r = Some k → inherited k = false
  | _ => True
  end.

End ThreeMaps.

(** ** Sample requests and environments *)

Module Scenario.
Import Http.

Definition id1 : string := "123e4567-e89b-42d3-a456-426614174000".
Definition id2 : string := "9b2e7c52-1f0a-4c3e-8d6b-5a4f3e2d1c0b".
Definition id3 : string := "0c6f1d2e-7a8b-4f90-b1c2-d3e4f5a6b7c8".

(** An environment with the credential set and an SDK that works. *)
Definition env (t : Z) (u : string) : Env :=
  mkEnv t u (Some "0xkey") true Completes true.

(** The same without RECALL_PRIVATE_KEY. *)
Definition env_no_key (t : Z) (u : string) : Env :=
  mkEnv t u None true Completes true.

Definition json_post (sessionId : option string) : Request :=
  mkRequest POST sessionId (Some "application/json") None.

Definition text_post (sessionId : option string) : Request :=
  mkRequest POST sessionId (Some "text/plain") None.

Definition get_request (sessionId : option string) (acc : option string) : Request :=
  mkRequest GET sessionId None acc.

Definition delete_request (sessionId : option string) : Request :=
  mkRequest DELETE sessionId None None.

End Scenario.

(** ** Closed transports *)

Module Ownership.
Import Server.

(** No transport that the server has closed is still in the store, and
    every closed transport is an object that was allocated. *)
Record tidy (s : State) : Prop := mkTidy {
  closed_allocated : ∀ t, t ∈ closed s → (t < heap_next s)%nat;
  live_not_closed : ∀ k d, transports s !! k = Some d → transport d ∉ closed s
}.

End Ownership.

(** ** The key sets of the three objects *)

Module KeySets.
Import Js ThreeMaps.

(** How far the key sets of the three objects can drift apart. *)
Record key_sets (s : State) : Prop := mkKeySets {
  toolkits_keys : dom (toolkits s) = dom (sessions s);
  activity_keys : dom (sessions s) ⊆ dom (lastActivity s);
  stray_keys : ∀ k, k ∈ dom (lastActivity s) → k ∉ dom (sessions s) →
                    inherited k = true
}.

(** The onclose closures hold UUIDs. *)
Definition hooks_hold_uuids (s : State) : Prop :=
  ∀ t k, onclose s !! t = Some k → is_uuid k = true.

End KeySets.

(** ** The two session-keeping servers side by side *)

Module Variants.
Import Js Http.

(** The same event for the three-object server. *)
Definition three (ev : Server.Event) : ThreeMaps.Event :=
  match ev with
  | Server.Post r e => ThreeMaps.Post r e
  | Server.SessionRequest r e => ThreeMaps.SessionRequest r e
  | Server.Tick e => ThreeMaps.Tick e
  | Server.TransportClosed t => ThreeMaps.TransportClosed t
  end.

(** The request names no property of [Object.prototype]. *)
Definition plain (r : Request) : Prop :=
  ∀ k, mcp_session_id r = Some k → inherited k = false.

(** The three objects hold, field by field, what the records of
    [transports] hold. *)
Record matches (s : Server.State) (m : ThreeMaps.State) : Prop := mkMatches {
  match_sessions :
    ∀ k, ThreeMaps.sessions m !! k = Server.transport <$> Server.transports s !! k;
  match_toolkits :
    ∀ k, ThreeMaps.toolkits m !! k = Server.toolkit <$> Server.transports s !! k;
  match_lastActivity :
    ∀ k, ThreeMaps.lastActivity m !! k =
         Server.lastActivity <$> Server.transports s !! k;
  match_onclose : ThreeMaps.onclose m = Server.onclose s;
  match_closed : ∀ t, t ∈ ThreeMaps.closed m ↔ t ∈ Server.closed s;
  match_issued : ThreeMaps.issued m = Server.issued s;
  match_heap : ThreeMaps.heap_next m = Server.heap_next s;
  match_prototype : Server.prototype_lastActivity s = None
}.

(** The two servers answer alike: the same headers, and the same outcome
    up to the body of the termination acknowledgment. *)
Definition same_reply (a b : Response) : Prop :=
  headers a = headers b ∧
  (outcome a = outcome b ∨
   (outcome a = Server.terminated ∧ outcome b = ThreeMaps.terminated)).

End Variants.

(** ** The stateless servers: one transport per request *)

Module Stateless.
Import Js Http.

Record State := mkState {
  listeners : gmap nat (list nat);  (* response ↦ the transports its "close" listeners close *)
  created : list nat;               (* transports constructed so far, latest first *)
  closed : list nat;                (* close() calls so far, latest first *)
  heap_next : nat                   (* next unused object address *)
}.

Definition init : State := mkState ∅ [] [] 0.

Definition createToolkit (e : Env) (addr : nat) : option nat :=
  if truthy_string (RECALL_PRIVATE_KEY e) then Some addr else None.

(** [res.on("close", () => transport.close())] *)
Definition on_close (res t : nat) (ls : gmap nat (list nat)) : gmap nat (list nat) :=
  <[res := (default [] (ls !! res) ++ [t])%list]> ls.

(** The body of the [try] once the response headers are set to [hs]:
    [createToolkit()], a new transport, the close listener on [res],
    [connect], [handleRequest]; the [catch] answers 500 unless the headers
    are out. *)
Definition serve (hs : list (string * string)) (s : State) (res : nat) (e : Env)
    : State * Response :=
  match createToolkit e (heap_next s) with
  | None => (s, mkResponse hs internal_error)
  | Some _ =>
      let t := S (heap_next s) in
      let s' := mkState (on_close res t (listeners s)) (t :: created s)
                        (closed s) (S (S (heap_next s))) in
      if connect_ok e then (s', mkResponse hs (delegate e t))
      else (s', mkResponse hs internal_error)
  end.

(** [app.post("/mcp", ...)] of the server with streaming headers. *)
Definition post (s : State) (res : nat) (r : Request) (e : Env) :=
  serve (if includes (or_empty (accept r)) "text/event-stream"
         then sse_headers [] else []) s res e.

(** Its [app.get("/mcp", ...)]. *)
Definition get (s : State) (res : nat) (e : Env) :=
  serve (sse_headers []) s res e.

(** [app.post("/mcp", ...)] of the server that answers GET and DELETE
    with 405. *)
Definition post_plain (s : State) (res : nat) (e : Env) :=
  serve [] s res e.

(** The "close" event of a response runs its listeners. *)
Definition response_closed (res : nat) (s : State) : State :=
  mkState (listeners s) (created s)
          (reverse (default [] (listeners s !! res)) ++ closed s)%list
          (heap_next s).

Inductive Event :=
  | Post (res : nat) (r : Request) (e : Env)
  | Get (res : nat) (e : Env)
  | PlainPost (res : nat) (e : Env)
  | ResponseClosed (res : nat).

Definition step (s : State) (ev : Event) : State :=
  match ev with
  | Post res r e => (post s res r e).1
  | Get res e => (get s res e).1
  | PlainPost res e => (post_plain s res e).1
  | ResponseClosed res => response_closed res s
  end.

Definition run (s : State) (evs : list Event) : State := foldl step s evs.

(** Every transport constructed hangs on the close listener of some
    response, and is an allocated object. *)
Record Inv (s : State) : Prop := mkInv {
  inv_listened : ∀ t, t ∈ created s →
                      ∃ res ts, listeners s !! res = Some ts ∧ t ∈ ts;
  inv_created : ∀ t, t ∈ created s → (t < heap_next s)%nat
}.

End Stateless.

(** * Properties *)

Module JsFacts.
Import Js.

Lemma is_uuid_length u : is_uuid u = true → String.length u = 36%nat.
Proof. unfold is_uuid. apply bool_decide_eq_true_1. Qed.

Lemma is_uuid_not_inherited u : is_uuid u = true → inherited u = false.
Proof.
  intros Hu. apply is_uuid_length in Hu.
  unfold inherited, object_prototype_names.
  apply bool_decide_eq_false. intros Hin.
  repeat (apply elem_of_cons in Hin as [-> | Hin]; [discriminate Hu |]).
  by apply elem_of_nil in Hin.
Qed.

Lemma is_uuid_truthy u : is_uuid u = true → truthy_string (Some u) = true.
Proof.
  intros Hu. apply is_uuid_length in Hu.
  destruct u; [discriminate Hu | reflexivity].
Qed.

Lemma is_uuid_not_lastActivity u : is_uuid u = true → u ≠ "lastActivity".
Proof. intros Hu ->. apply is_uuid_length in Hu. discriminate Hu. Qed.

End JsFacts.

Module ServerFacts.
Import Js Http Server JsFacts.

(** *** Looking a session up *)

Lemma get_session s k d : transports s !! k = Some d → get s k = Session d.
Proof. intros H. unfold get. by rewrite H. Qed.

Lemma get_stale s k :
  is_uuid k = true → transports s !! k = None → get s k = Undefined.
Proof.
  intros Hu H. unfold get. rewrite H, (is_uuid_not_inherited _ Hu).
  rewrite bool_decide_eq_false_2; [done | by apply is_uuid_not_lastActivity].
Qed.

Lemma get_inherited s k :
  inherited k = true → transports s !! k = None → get s k = Builtin k.
Proof. intros Hk H. unfold get. by rewrite H, Hk. Qed.

Lemma get_Session_inv s k d : get s k = Session d → transports s !! k = Some d.
Proof.
  unfold get. destruct (transports s !! k); [congruence|].
  repeat case_match; done.
Qed.

Lemma lookup_session_live s k d :
  is_uuid k = true → transports s !! k = Some d →
  lookup_session s (Some k) = Some (k, Session d).
Proof.
  intros Hu H. unfold lookup_session.
  by rewrite (is_uuid_truthy _ Hu), (get_session _ _ _ H).
Qed.

Lemma lookup_session_stale s k :
  is_uuid k = true → transports s !! k = None →
  lookup_session s (Some k) = None.
Proof.
  intros Hu H. unfold lookup_session.
  rewrite (get_stale _ _ Hu H). simpl. by rewrite andb_false_r.
Qed.

Lemma lookup_session_key s h k v :
  lookup_session s h = Some (k, v) → h = Some k ∧ get s k = v ∧ truthy v = true.
Proof.
  unfold lookup_session. destruct h as [k'|]; [|done].
  destruct (truthy_string (Some k') && truthy (get s k')) eqn:E; [|done].
  intros [= <- <-]. by apply andb_true_iff in E as [_ ?].
Qed.

(** *** The invariant *)

Lemma shrinks_refl s : shrinks s s.
Proof. by split. Qed.

Lemma shrinks_trans s1 s2 s3 : shrinks s1 s2 → shrinks s2 s3 → shrinks s1 s3.
Proof.
  intros [] []. split; try congruence. by etrans.
Qed.

Lemma shrinks_delete k s : shrinks s (set_transports (delete k) s).
Proof. split; try done. apply delete_subseteq. Qed.

Lemma shrinks_log_close t s : shrinks s (log_close t s).
Proof. by split. Qed.

Lemma shrinks_fire_onclose t s : shrinks s (fire_onclose t s).
Proof.
  unfold fire_onclose. destruct (onclose s !! t);
    [apply shrinks_delete | apply shrinks_refl].
Qed.

Lemma shrinks_close e t s : shrinks s (close e t s).
Proof.
  unfold close. destruct (close_notifies e).
  - eapply shrinks_trans; [apply shrinks_log_close | apply shrinks_fire_onclose].
  - apply shrinks_log_close.
Qed.

Lemma shrinks_sweep_entry e s entry : shrinks s (sweep_entry e s entry).
Proof.
  unfold sweep_entry. destruct (expired e entry.2); [|apply shrinks_refl].
  eapply shrinks_trans; [apply shrinks_close | apply shrinks_delete].
Qed.

Lemma shrinks_foldl_sweep e entries s :
  shrinks s (foldl (sweep_entry e) s entries).
Proof.
  revert s. induction entries as [|entry entries IH]; intros s; simpl.
  - apply shrinks_refl.
  - eapply shrinks_trans; [apply shrinks_sweep_entry | apply IH].
Qed.

Lemma shrinks_sweep s e : shrinks s (sweep s e).
Proof. apply shrinks_foldl_sweep. Qed.

Lemma Inv_shrinks s s' : Inv s → shrinks s s' → Inv s'.
Proof.
  intros [Hk Hh Hp Hi] [Ht _ Ho Hiss Hn]. split.
  - intros k d H. eapply Hk, lookup_weaken; eauto.
  - intros k d H. rewrite Ho. eapply Hh, lookup_weaken; eauto.
  - intros t k. rewrite Ho, Hn. apply Hp.
  - intros k d H. rewrite Hiss. eapply Hi, lookup_weaken; eauto.
Qed.

Lemma Inv_init : Inv init.
Proof. split; simpl; intros *; by rewrite lookup_empty. Qed.

Lemma Inv_touch s k v t s' : Inv s → get s k = v → touch s k v t = Some s' → Inv s'.
Proof.
  intros [Hk Hh Hp Hi] Hv Ht. destruct v as [d| name | |]; simpl in Ht; try done.
  - injection Ht as <-. apply get_Session_inv in Hv.
    split; simpl.
    + intros k' d'. rewrite lookup_insert. case_decide; [naive_solver | apply Hk].
    + intros k' d'. rewrite lookup_insert.
      case_decide; [intros [= <-]; subst; simpl; eauto | apply Hh].
    + apply Hp.
    + intros k' d'. rewrite lookup_insert. case_decide; [subst; eauto | apply Hi].
  - injection Ht as <-. case_bool_decide; by split.
Qed.

(** The state of the creation path once the session is registered. *)
Lemma Inv_register s e tk :
  Inv s → is_uuid (uuid e) = true →
  Inv (set_onclose (heap_next s) (uuid e)
         (set_transports
            <[uuid e := mkSession (heap_next s) tk (now e)]>
            (alloc (alloc (log_uuid (uuid e) s))))).
Proof.
  intros [Hk Hh Hp Hi] Hu. split; simpl.
  - intros k d. rewrite lookup_insert. case_decide; [by subst | apply Hk].
  - intros k d. rewrite lookup_insert. case_decide.
    + intros [= <-]. subst. simpl. by rewrite lookup_insert_eq.
    + intros H'. pose proof (Hh _ _ H') as Ho. pose proof (Hp _ _ Ho).
      rewrite lookup_insert_ne; [done | lia].
  - intros t k. rewrite lookup_insert. case_decide; [lia|].
    intros Ho. apply Hp in Ho. lia.
  - intros k d. rewrite lookup_insert. case_decide.
    + intros _. subst. apply elem_of_cons. by left.
    + intros H'. apply elem_of_cons. right. eauto.
Qed.

Lemma Inv_grow s u n :
  Inv s → Inv (Nat.iter n alloc (log_uuid u s)).
Proof.
  intros [Hk Hh Hp Hi]. induction n as [|n IH]; simpl.
  - split; simpl; eauto. intros k d H. apply elem_of_cons. right. eauto.
  - destruct IH as [Hk' Hh' Hp' Hi']. split; simpl; eauto.
    intros t k Ho. apply Hp' in Ho. lia.
Qed.

Lemma Inv_resolve s r e :
  Inv s → is_uuid (uuid e) = true →
  match resolve s r e with
  | inl s' => Inv s'
  | inr (s', _, _) => Inv s'
  end.
Proof.
  intros HI Hu. unfold resolve.
  destruct (lookup_session s (mcp_session_id r)) as [[k v]|] eqn:E.
  - apply lookup_session_key in E as (_ & Hv & _).
    destruct (touch s k v (now e)) eqn:Et; [|done].
    eapply Inv_touch; eauto.
  - unfold createToolkit.
    destruct (truthy_string (RECALL_PRIVATE_KEY e)).
    + destruct (connect_ok e).
      * by apply Inv_register.
      * apply (Inv_grow s (uuid e) 2 HI).
    + apply (Inv_grow s (uuid e) 1 HI).
Qed.

Lemma Inv_post s r e : Inv s → is_uuid (uuid e) = true → Inv (post s r e).1.
Proof.
  intros HI Hu. pose proof (Inv_resolve s r e HI Hu) as H. unfold post.
  destruct (resolve s r e) as [s'|[[s' hs] v]]; [done|].
  by destruct (negb _).
Qed.

Lemma Inv_handleSessionRequest s r e : Inv s → Inv (handleSessionRequest s r e).1.
Proof.
  intros HI. unfold handleSessionRequest.
  destruct (lookup_session s (mcp_session_id r)) as [[k v]|] eqn:E; [|done].
  apply lookup_session_key in E as (_ & Hv & _).
  destruct (touch s k v (now e)) as [s1|] eqn:Et; [|done].
  pose proof (Inv_touch _ _ _ _ _ HI Hv Et) as HI1.
  destruct (method r); simpl; try done.
  - by destruct (negb _).
  - destruct (transport_of v); [|done]. simpl.
    eapply Inv_shrinks; [exact HI1|].
    eapply shrinks_trans; [apply shrinks_close | apply shrinks_delete].
Qed.

Lemma Inv_step s ev : Inv s → wf_event ev → Inv (step s ev).
Proof.
  intros HI Hwf. destruct ev as [r e|r e|e|t]; simpl in *.
  - by apply Inv_post.
  - by apply Inv_handleSessionRequest.
  - eapply Inv_shrinks; [exact HI | apply shrinks_sweep].
  - eapply Inv_shrinks; [exact HI | apply shrinks_fire_onclose].
Qed.

Lemma Inv_run s evs : Inv s → Forall wf_event evs → Inv (run s evs).
Proof.
  intros HI Hwf. revert s HI.
  induction Hwf as [|ev evs Hev _ IH]; intros s HI; simpl; [done|].
  apply IH. by apply Inv_step.
Qed.

Lemma reachable_Inv s : reachable s → Inv s.
Proof. intros (evs & Hwf & ->). apply Inv_run; [apply Inv_init | done]. Qed.

(** *** The handlers on a live, a stale and a missing session ID *)

Lemma lookup_session_reachable s k d :
  reachable s → transports s !! k = Some d →
  lookup_session s (Some k) = Some (k, Session d).
Proof.
  intros Hr H. apply lookup_session_live; [|done].
  eapply inv_keys; [by apply reachable_Inv | done].
Qed.

(** A state is reachable when it is the end of the run [evs]. *)
Ltac by_run evs := exists evs; split; [repeat constructor | reflexivity].

(** The state after one session has been created at time 1000. *)
Ltac one_session :=
  by_run [Post (Scenario.json_post None) (Scenario.env 1000 Scenario.id1)].

(** The new-session branch when provisioning goes through. *)
Lemma resolve_create s r e :
  lookup_session s (mcp_session_id r) = None →
  truthy_string (RECALL_PRIVATE_KEY e) = true →
  connect_ok e = true →
  resolve s r e =
    inr (set_onclose (heap_next s) (uuid e)
           (set_transports
              <[uuid e := mkSession (heap_next s) (S (heap_next s)) (now e)]>
              (alloc (alloc (log_uuid (uuid e) s)))),
         [("Mcp-Session-Id", uuid e)],
         Session (mkSession (heap_next s) (S (heap_next s)) (now e))).
Proof.
  intros Hl Hk Hc. unfold resolve, createToolkit. by rewrite Hl, Hk, Hc.
Qed.

(** The reuse branch on a registered session. *)
Lemma resolve_reuse s r e k d :
  reachable s → mcp_session_id r = Some k → transports s !! k = Some d →
  resolve s r e =
    inr (set_transports <[k := mkSession (transport d) (toolkit d) (now e)]> s,
         [], Session d).
Proof.
  intros Hr Hh Hd. unfold resolve.
  by rewrite Hh, (lookup_session_reachable _ _ _ Hr Hd).
Qed.

(** C4. When the POST handler takes the new-session branch and
    [createToolkit] throws because RECALL_PRIVATE_KEY is missing or empty,
    the handler's [catch] answers 500 with JSON-RPC code -32603, no
    Mcp-Session-Id header is set, and nothing is registered: the
    [transports] object and the installed onclose closures are as before. *)
Theorem post_missing_credential_registers_nothing s r e :
  lookup_session s (mcp_session_id r) = None →
  truthy_string (RECALL_PRIVATE_KEY e) = false →
  (post s r e).2 =
    mkResponse [] (Replied 500 (jsonrpc_error (-32603) "Internal server error")) ∧
  transports (post s r e).1 = transports s ∧
  onclose (post s r e).1 = onclose s.
Proof.
  intros Hl Hk. unfold post, resolve, createToolkit. rewrite Hl, Hk. done.
Qed.

Lemma post_missing_credential_registers_nothing_witness :
  let r := Scenario.json_post None in
  let e := Scenario.env_no_key 1000 Scenario.id1 in
  (post init r e).2 =
    mkResponse [] (Replied 500 (jsonrpc_error (-32603) "Internal server error")) ∧
  transports (post init r e).1 = transports init ∧
  onclose (post init r e).1 = onclose init.
Proof.
  apply post_missing_credential_registers_nothing; reflexivity.
Defined.

(** C1, as the code has it.  A POST whose Content-Type does not contain
    "application/json" is answered 415 with JSON-RPC code -32000 once session
    resolution has completed, and resolution comes first: with a live
    session ID no session is created and only that session's lastActivity is
    set to the time of the request; on the new-session branch (no usable
    ID, provisioning succeeds) the session is registered under the fresh ID
    and the 415 response carries it in Mcp-Session-Id. *)
Theorem post_non_json_after_resolution s r e :
  reachable s →
  includes (or_empty (content_type r)) "application/json" = false →
  (∀ k d, mcp_session_id r = Some k → transports s !! k = Some d →
     post s r e =
       (set_transports <[k := mkSession (transport d) (toolkit d) (now e)]> s,
        mkResponse []
          (Replied 415
             (jsonrpc_error (-32000) "Content-Type must be application/json")))) ∧
  (lookup_session s (mcp_session_id r) = None →
   truthy_string (RECALL_PRIVATE_KEY e) = true → connect_ok e = true →
     (post s r e).2 =
       mkResponse [("Mcp-Session-Id", uuid e)]
         (Replied 415
            (jsonrpc_error (-32000) "Content-Type must be application/json")) ∧
     transports (post s r e).1 =
       <[uuid e := mkSession (heap_next s) (S (heap_next s)) (now e)]>
         (transports s)).
Proof.
  intros Hr Hct. split.
  - intros k d Hh Hd. unfold post.
    by rewrite (resolve_reuse _ _ e _ _ Hr Hh Hd), Hct.
  - intros Hl Hk Hc. unfold post.
    by rewrite (resolve_create _ _ _ Hl Hk Hc), Hct.
Qed.

Lemma post_non_json_after_resolution_witness :
  let s := (post init (Scenario.json_post None) (Scenario.env 1000 Scenario.id1)).1 in
  let e := Scenario.env 2000 Scenario.id2 in
  post s (Scenario.text_post (Some Scenario.id1)) e =
    (set_transports <[Scenario.id1 := mkSession 0 1 2000]> s,
     mkResponse []
       (Replied 415
          (jsonrpc_error (-32000) "Content-Type must be application/json"))) ∧
  ((post s (Scenario.text_post None) e).2 =
     mkResponse [("Mcp-Session-Id", Scenario.id2)]
       (Replied 415
          (jsonrpc_error (-32000) "Content-Type must be application/json")) ∧
   transports (post s (Scenario.text_post None) e).1 =
     <[Scenario.id2 := mkSession 2 3 2000]> (transports s)).
Proof.
  intros s e.
  assert (reachable s) as Hr by one_session.
  split.
  - apply (proj1 (post_non_json_after_resolution s
                    (Scenario.text_post (Some Scenario.id1)) e Hr eq_refl)
             Scenario.id1 (mkSession 0 1 1000)); reflexivity.
  - apply (proj2 (post_non_json_after_resolution s
                    (Scenario.text_post None) e Hr eq_refl)); reflexivity.
Defined.

(** C1 fails as stated: a POST with Content-Type text/plain and no session
    header is answered 415, but it has registered a new session first. *)
Lemma post_text_plain_registers_session :
  let r := Scenario.text_post None in
  let e := Scenario.env 1000 Scenario.id1 in
  includes (or_empty (content_type r)) "application/json" = false ∧
  (post init r e).2 =
    mkResponse [("Mcp-Session-Id", Scenario.id1)]
      (Replied 415
         (jsonrpc_error (-32000) "Content-Type must be application/json")) ∧
  transports init !! Scenario.id1 = None ∧
  transports (post init r e).1 !! Scenario.id1 = Some (mkSession 0 1 1000) ∧
  transports (post init r e).1 ≠ transports init.
Proof.
  assert (transports (post init (Scenario.text_post None)
                        (Scenario.env 1000 Scenario.id1)).1 !! Scenario.id1
          = Some (mkSession 0 1 1000)) as H by (vm_compute; reflexivity).
  repeat split; try reflexivity; try exact H.
  intros Heq. rewrite Heq in H. discriminate H.
Qed.



(** C2, as the code has it.  A GET that bears a live session ID and whose
    Accept header does not contain "text/event-stream" is rejected with 406
    and JSON-RPC code -32000; the session stays registered with its
    transport and toolkit and nothing else in the state changes, but its
    lastActivity is set to the time of the request, because the handler
    touches the session before it looks at Accept. *)
Theorem get_not_acceptable_touches_session s r e k d :
  reachable s →
  method r = GET →
  mcp_session_id r = Some k →
  transports s !! k = Some d →
  includes (or_empty (accept r)) "text/event-stream" = false →
  handleSessionRequest s r e =
    (set_transports <[k := mkSession (transport d) (toolkit d) (now e)]> s,
     mkResponse []
       (Replied 406
          (jsonrpc_error (-32000) "Accept header must include text/event-stream"))).
Proof.
  intros Hr Hm Hh Hd Ha. unfold handleSessionRequest.
  rewrite Hh, (lookup_session_reachable _ _ _ Hr Hd). simpl.
  by rewrite Hm, Ha.
Qed.

Lemma get_not_acceptable_touches_session_witness :
  let s := (post init (Scenario.json_post None) (Scenario.env 1000 Scenario.id1)).1 in
  handleSessionRequest s (Scenario.get_request (Some Scenario.id1) (Some "*/*"))
      (Scenario.env 5000 Scenario.id2) =
    (set_transports <[Scenario.id1 := mkSession 0 1 5000]> s,
     mkResponse []
       (Replied 406
          (jsonrpc_error (-32000) "Accept header must include text/event-stream"))).
Proof.
  intros s.
  assert (reachable s) as Hr by one_session.
  apply (get_not_acceptable_touches_session s
           (Scenario.get_request (Some Scenario.id1) (Some "*/*"))
           (Scenario.env 5000 Scenario.id2) Scenario.id1 (mkSession 0 1 1000)
           Hr); reflexivity.
Defined.

(** C2 fails as stated: the session created at time 1000 has lastActivity
    5000 after a GET without Accept at time 5000 was rejected with 406. *)
Lemma get_not_acceptable_updates_lastActivity :
  let s := (post init (Scenario.json_post None) (Scenario.env 1000 Scenario.id1)).1 in
  let r := Scenario.get_request (Some Scenario.id1) None in
  let e := Scenario.env 5000 Scenario.id2 in
  lastActivity <$> transports s !! Scenario.id1 = Some 1000 ∧
  (handleSessionRequest s r e).2 =
    mkResponse []
      (Replied 406
         (jsonrpc_error (-32000) "Accept header must include text/event-stream")) ∧
  lastActivity <$> transports (handleSessionRequest s r e).1 !! Scenario.id1
    = Some 5000.
Proof. vm_compute. done. Qed.

(** C3, as the code has it.  Terminating a live session answers 200 and
    removes it.  A second DELETE for the same ID, or a DELETE after the
    transport's onclose closure has already removed the session, raises no
    exception and leaves the store unchanged and without that ID, but it is
    not acknowledged as success: the guard at the top of the handler rejects
    it with 400 and JSON-RPC code -32000. *)
Theorem delete_again_is_rejected s r e e' k d :
  reachable s →
  method r = DELETE →
  mcp_session_id r = Some k →
  transports s !! k = Some d →
  let s1 := (handleSessionRequest s r e).1 in
  let s2 := fire_onclose (transport d) s in
  (handleSessionRequest s r e).2 =
    mkResponse []
      (Replied 200 (JObj [("status", JStr "ok"); ("message", JStr "Session terminated")])) ∧
  transports s1 !! k = None ∧
  handleSessionRequest s1 r e' =
    (s1, mkResponse []
           (Replied 400 (jsonrpc_error (-32000) "Invalid or missing session ID"))) ∧
  transports s2 !! k = None ∧
  handleSessionRequest s2 r e' =
    (s2, mkResponse []
           (Replied 400 (jsonrpc_error (-32000) "Invalid or missing session ID"))).
Proof.
  intros Hr Hm Hh Hd s1 s2.
  pose proof (reachable_Inv _ Hr) as HI.
  pose proof (inv_keys _ HI _ _ Hd) as Hu.
  assert (∀ s', transports s' !! k = None →
            handleSessionRequest s' r e' = (s', mkResponse [] bad_session)) as Hgone.
  { intros s' Hn. unfold handleSessionRequest.
    by rewrite Hh, (lookup_session_stale _ _ Hu Hn). }
  assert (handleSessionRequest s r e =
            (set_transports (delete k)
               (close e (transport d)
                  (set_transports
                     <[k := mkSession (transport d) (toolkit d) (now e)]> s)),
             mkResponse [] terminated)) as H1.
  { unfold handleSessionRequest.
    rewrite Hh, (lookup_session_reachable _ _ _ Hr Hd). simpl. by rewrite Hm. }
  assert (transports s1 !! k = None) as Hn1.
  { subst s1. rewrite H1. simpl. apply lookup_delete_eq. }
  assert (transports s2 !! k = None) as Hn2.
  { subst s2. unfold fire_onclose. rewrite (inv_hook _ HI _ _ Hd). simpl.
    apply lookup_delete_eq. }
  split; [by rewrite H1|]. split; [done|]. split; [by apply Hgone|].
  split; [done | by apply Hgone].
Qed.

Lemma delete_again_is_rejected_witness :
  let s := (post init (Scenario.json_post None) (Scenario.env 1000 Scenario.id1)).1 in
  let r := Scenario.delete_request (Some Scenario.id1) in
  let s1 := (handleSessionRequest s r (Scenario.env 2000 Scenario.id2)).1 in
  transports s1 !! Scenario.id1 = None ∧
  handleSessionRequest s1 r (Scenario.env 3000 Scenario.id2) =
    (s1, mkResponse []
           (Replied 400 (jsonrpc_error (-32000) "Invalid or missing session ID"))).
Proof.
  intros s r s1.
  assert (reachable s) as Hr by one_session.
  pose proof (delete_again_is_rejected s r (Scenario.env 2000 Scenario.id2)
                (Scenario.env 3000 Scenario.id2) Scenario.id1 (mkSession 0 1 1000)
                Hr eq_refl eq_refl eq_refl)
    as (_ & Hgone & Hagain & _).
  split; [exact Hgone | exact Hagain].
Defined.

(** C3 fails as stated: the second DELETE of the same session ID is answered
    with the 400 error, not with the success acknowledgment. *)
Lemma second_delete_answers_400 :
  let s := (post init (Scenario.json_post None) (Scenario.env 1000 Scenario.id1)).1 in
  let r := Scenario.delete_request (Some Scenario.id1) in
  let first := handleSessionRequest s r (Scenario.env 2000 Scenario.id2) in
  let second := handleSessionRequest first.1 r (Scenario.env 3000 Scenario.id2) in
  outcome first.2 =
    Replied 200 (JObj [("status", JStr "ok"); ("message", JStr "Session terminated")]) ∧
  outcome second.2 =
    Replied 400 (jsonrpc_error (-32000) "Invalid or missing session ID") ∧
  outcome second.2 ≠ outcome first.2.
Proof. vm_compute. repeat split; discriminate. Qed.

(** C5, as the code has it.  A POST carrying the ID of a session in the
    store reuses it: its lastActivity is set to the time of the request, the
    key set of the store does not change, no Mcp-Session-Id header is set,
    and a request with a JSON content type is handed to that session's own
    transport.  A POST on which the handler's lookup finds nothing creates
    exactly one new session and returns its ID in Mcp-Session-Id, provided
    provisioning succeeds (the credential is set, connect resolves) and the
    generated UUID is not in the store. *)
Theorem post_reuses_or_creates_one s r e :
  reachable s →
  (∀ k d, mcp_session_id r = Some k → transports s !! k = Some d →
     transports (post s r e).1 =
       <[k := mkSession (transport d) (toolkit d) (now e)]> (transports s) ∧
     dom (transports (post s r e).1) = dom (transports s) ∧
     has_header "Mcp-Session-Id" (post s r e).2 = false ∧
     (includes (or_empty (content_type r)) "application/json" = true →
        outcome (post s r e).2 = delegate e (transport d))) ∧
  (lookup_session s (mcp_session_id r) = None →
   truthy_string (RECALL_PRIVATE_KEY e) = true → connect_ok e = true →
   transports s !! uuid e = None →
     transports (post s r e).1 =
       <[uuid e := mkSession (heap_next s) (S (heap_next s)) (now e)]>
         (transports s) ∧
     size (transports (post s r e).1) = S (size (transports s)) ∧
     ("Mcp-Session-Id", uuid e) ∈ headers (post s r e).2).
Proof.
  intros Hr. split.
  - intros k d Hh Hd. unfold post.
    rewrite (resolve_reuse _ _ e _ _ Hr Hh Hd).
    destruct (includes (or_empty (content_type r)) "application/json");
      destruct (includes (or_empty (accept r)) "text/event-stream"); simpl;
      (split; [done|]); (split; [apply dom_insert_lookup_L; by eexists|]);
      (split; [reflexivity|]); done.
  - intros Hl Hk Hc Hfresh. unfold post.
    rewrite (resolve_create _ _ _ Hl Hk Hc).
    destruct (includes (or_empty (content_type r)) "application/json");
      destruct (includes (or_empty (accept r)) "text/event-stream"); simpl;
      (split; [done|]); (split; [by apply map_size_insert_None|]);
      unfold sse_headers, setHeader; set_solver.
Qed.

Lemma post_reuses_or_creates_one_witness :
  let s := (post init (Scenario.json_post None) (Scenario.env 1000 Scenario.id1)).1 in
  let e := Scenario.env 2000 Scenario.id2 in
  (transports (post s (Scenario.json_post (Some Scenario.id1)) e).1 =
     <[Scenario.id1 := mkSession 0 1 2000]> (transports s) ∧
   has_header "Mcp-Session-Id" (post s (Scenario.json_post (Some Scenario.id1)) e).2
     = false ∧
   outcome (post s (Scenario.json_post (Some Scenario.id1)) e).2 = delegate e 0) ∧
  (size (transports (post s (Scenario.json_post None) e).1) = S (size (transports s)) ∧
   ("Mcp-Session-Id", Scenario.id2) ∈ headers (post s (Scenario.json_post None) e).2).
Proof.
  intros s e.
  assert (reachable s) as Hr by one_session.
  split.
  - pose proof (proj1 (post_reuses_or_creates_one s
                         (Scenario.json_post (Some Scenario.id1)) e
                         Hr)
                  Scenario.id1 (mkSession 0 1 1000) eq_refl eq_refl)
      as (Ht & _ & Hh & Hd).
    split; [exact Ht|]. split; [exact Hh | exact (Hd eq_refl)].
  - pose proof (proj2 (post_reuses_or_creates_one s (Scenario.json_post None) e
                         Hr)
                  eq_refl eq_refl eq_refl eq_refl)
      as (_ & Hs & Hh).
    split; [exact Hs | exact Hh].
Defined.

(** C5 fails as stated: a POST without a session ID creates no session and
    returns no ID when RECALL_PRIVATE_KEY is not set. *)
Lemma post_without_credential_creates_none :
  let r := Scenario.json_post None in
  let e := Scenario.env_no_key 1000 Scenario.id1 in
  mcp_session_id r = None ∧
  transports (post init r e).1 = transports init ∧
  size (transports (post init r e).1) = 0%nat ∧
  has_header "Mcp-Session-Id" (post init r e).2 = false.
Proof. repeat split. Qed.

(** *** Session IDs that name an inherited property *)

(** A session ID that is a property name of [Object.prototype] and not a
    key of the store passes the guard of [handleSessionRequest]. *)
Lemma lookup_session_inherited s k :
  inherited k = true → transports s !! k = None →
  lookup_session s (Some k) = Some (k, Builtin k).
Proof.
  intros Hk Hn. unfold lookup_session. rewrite (get_inherited _ _ Hk Hn). simpl.
  destruct k; [done | reflexivity].
Qed.

Lemma delete_inherited_name s e k :
  inherited k = true → k ≠ "__proto__" → transports s !! k = None →
  handleSessionRequest s (Scenario.delete_request (Some k)) e =
    (s, mkResponse [] internal_error).
Proof.
  intros Hk Hp Hn. unfold handleSessionRequest.
  change (mcp_session_id (Scenario.delete_request (Some k))) with (Some k).
  rewrite (lookup_session_inherited _ _ Hk Hn). simpl.
  by rewrite bool_decide_eq_false_2.
Qed.

(** Outside those names the guard does what it is there for. *)
Lemma session_request_no_header s r e :
  mcp_session_id r = None →
  handleSessionRequest s r e = (s, mkResponse [] bad_session).
Proof. intros H. unfold handleSessionRequest. by rewrite H. Qed.

Lemma session_request_empty_header s r e :
  mcp_session_id r = Some "" →
  handleSessionRequest s r e = (s, mkResponse [] bad_session).
Proof. intros H. unfold handleSessionRequest. by rewrite H. Qed.

Lemma session_request_unknown_uuid s r e k :
  mcp_session_id r = Some k → is_uuid k = true → transports s !! k = None →
  handleSessionRequest s r e = (s, mkResponse [] bad_session).
Proof.
  intros H Hu Hn. unfold handleSessionRequest.
  by rewrite H, (lookup_session_stale _ _ Hu Hn).
Qed.

(** C7 at the failing input.  With one session registered, a DELETE whose
    Mcp-Session-Id is "constructor", which matches no live session, is not
    answered 400 "Invalid or missing session ID": the guard reads the
    inherited [transports["constructor"]], finds it truthy, and the call on
    its missing [transport] throws, so the [catch] answers 500 / -32603.
    A GET with that ID and Accept: text/event-stream ends the same way. *)
Theorem delete_constructor_answers_500 :
  let s := (post init (Scenario.json_post None) (Scenario.env 1000 Scenario.id1)).1 in
  let r := Scenario.delete_request (Some "constructor") in
  let g := Scenario.get_request (Some "constructor") (Some "text/event-stream") in
  transports s !! "constructor" = None ∧
  handleSessionRequest s r (Scenario.env 2000 Scenario.id2) =
    (s, mkResponse []
          (Replied 500 (jsonrpc_error (-32603) "Internal server error"))) ∧
  outcome (handleSessionRequest s r (Scenario.env 2000 Scenario.id2)).2 ≠
    Replied 400 (jsonrpc_error (-32000) "Invalid or missing session ID") ∧
  outcome (handleSessionRequest s g (Scenario.env 2000 Scenario.id2)).2 =
    Replied 500 (jsonrpc_error (-32603) "Internal server error").
Proof.
  intros s r g.
  assert (transports s !! "constructor" = None) as Hn by reflexivity.
  assert (handleSessionRequest s r (Scenario.env 2000 Scenario.id2) =
            (s, mkResponse [] internal_error)) as H.
  { apply delete_inherited_name; [reflexivity | discriminate | exact Hn]. }
  split; [exact Hn|]. split; [exact H|].
  split; [rewrite H; discriminate | reflexivity].
Qed.


(** *** Accept negotiation *)

Lemma resolve_headers s r e s' hs v :
  resolve s r e = inr (s', hs, v) →
  hs = [] ∨ hs = [("Mcp-Session-Id", uuid e)].
Proof.
  unfold resolve.
  destruct (lookup_session s (mcp_session_id r)) as [[k v']|].
  - destruct (touch s k v' (now e)); [|done]. intros [= <- <- <-]. by left.
  - destruct (createToolkit e _); [|done].
    destruct (connect_ok e); [|done]. intros [= <- <- <-]. by right.
Qed.

Lemma elem_of_setHeader k v hs x :
  x ∈ setHeader k v hs ↔ x ∈ hs ∨ x = (k, v).
Proof. unfold setHeader. by rewrite elem_of_app, list_elem_of_singleton. Qed.

Lemma delegate_not_406 e t body : delegate e t ≠ Replied 406 body.
Proof. unfold delegate, caught. by repeat case_match. Qed.

(** C10, as the code has it.  The Accept negotiation is a literal
    substring test, but on a POST it comes after session resolution and
    after the content-type check: the response carries the three streaming
    headers exactly when resolution completed, the Content-Type contains
    "application/json" and the Accept header contains "text/event-stream";
    a POST that got that far without the substring announces
    application/json instead.  A GET for a live session is rejected with
    406 exactly when its Accept header does not contain the substring, and
    is otherwise handed to the transport with the streaming headers set.
    Neither "*/*" nor an absent Accept header contains the substring. *)
Theorem accept_negotiation_is_substring_match s r e :
  (streaming (post s r e).2 ↔
     (∃ s' hs v, resolve s r e = inr (s', hs, v)) ∧
     includes (or_empty (content_type r)) "application/json" = true ∧
     includes (or_empty (accept r)) "text/event-stream" = true) ∧
  (∀ s' hs v,
     resolve s r e = inr (s', hs, v) →
     includes (or_empty (content_type r)) "application/json" = true →
     includes (or_empty (accept r)) "text/event-stream" = false →
     headers (post s r e).2 = hs ++ [("Content-Type", "application/json")])%list ∧
  (∀ k d,
     reachable s → method r = GET →
     mcp_session_id r = Some k → transports s !! k = Some d →
     (outcome (handleSessionRequest s r e).2 =
        Replied 406
          (jsonrpc_error (-32000) "Accept header must include text/event-stream") ↔
      includes (or_empty (accept r)) "text/event-stream" = false) ∧
     (includes (or_empty (accept r)) "text/event-stream" = true →
        (handleSessionRequest s r e).2 =
          mkResponse [("Content-Type", "text/event-stream");
                      ("Cache-Control", "no-cache");
                      ("Connection", "keep-alive")]
                     (delegate e (transport d)))) ∧
  includes (or_empty (Some "*/*")) "text/event-stream" = false ∧
  includes (or_empty None) "text/event-stream" = false.
Proof.
  split; [|split; [|split; [|split; reflexivity]]].
  - unfold post.
    destruct (resolve s r e) as [s1 | [[s1 hs] v]] eqn:Hres.
    { simpl. split.
      - intros (Hs & _). by apply elem_of_nil in Hs.
      - by intros ((? & ? & ? & ?) & _). }
    apply resolve_headers in Hres.
    assert (("Content-Type", "text/event-stream") ∉ hs) as Hhs.
    { destruct Hres as [-> | ->]; intros Hs.
      - by apply elem_of_nil in Hs.
      - apply list_elem_of_singleton in Hs. discriminate Hs. }
    destruct (includes (or_empty (content_type r)) "application/json"); simpl.
    + destruct (includes (or_empty (accept r)) "text/event-stream"); simpl.
      * split; [by eauto 6|]. intros _.
        unfold streaming, sse_headers. simpl.
        rewrite !elem_of_setHeader. auto 6.
      * split; [|by intros (_ & _ & ?)]. intros (Hs & _). exfalso.
        apply elem_of_setHeader in Hs as [Hs | Hs]; [done | discriminate Hs].
    + split; [|by intros (_ & ? & _)]. intros (Hs & _). done.
  - intros s' hs v Hres Hct Hacc. unfold post. by rewrite Hres, Hct, Hacc.
  - intros k d Hr Hm Hh Hd. unfold handleSessionRequest.
    rewrite Hh, (lookup_session_reachable _ _ _ Hr Hd). simpl. rewrite Hm.
    destruct (includes (or_empty (accept r)) "text/event-stream"); simpl.
    + split; [|done]. split; [|done]. intros H. by apply delegate_not_406 in H.
    + split; [done|]. done.
Qed.

Lemma accept_negotiation_is_substring_match_witness :
  let s := (post init (Scenario.json_post None) (Scenario.env 1000 Scenario.id1)).1 in
  let e := Scenario.env 2000 Scenario.id2 in
  let r := Scenario.json_post (Some Scenario.id1) in
  let g := Scenario.get_request (Some Scenario.id1) (Some "*/*") in
  headers (post s r e).2 = [("Content-Type", "application/json")] ∧
  outcome (handleSessionRequest s g e).2 =
    Replied 406
      (jsonrpc_error (-32000) "Accept header must include text/event-stream").
Proof.
  intros s e r g.
  assert (reachable s) as Hr by one_session.
  split.
  - exact (proj1 (proj2 (accept_negotiation_is_substring_match s r e))
             (set_transports <[Scenario.id1 := mkSession 0 1 2000]> s)
             [] (Session (mkSession 0 1 1000)) eq_refl eq_refl eq_refl).
  - destruct (proj1 (proj2 (proj2 (accept_negotiation_is_substring_match s g e)))
                Scenario.id1 (mkSession 0 1 1000)
                Hr eq_refl eq_refl eq_refl) as [Hiff _].
    apply Hiff. reflexivity.
Defined.

(** C10 fails as stated: the Accept header of these POSTs contains
    "text/event-stream", yet the response is not put in streaming mode.
    With Content-Type text/plain the handler answers 415 before it reads
    Accept, and the only header set is the new session's ID; without
    RECALL_PRIVATE_KEY session creation throws, also before the
    negotiation, and the 500 response carries no header at all. *)
Lemma post_event_stream_accept_without_streaming :
  let r := mkRequest POST None (Some "text/plain") (Some "text/event-stream") in
  let q := mkRequest POST None (Some "application/json") (Some "text/event-stream") in
  let e := Scenario.env 1000 Scenario.id1 in
  let e' := Scenario.env_no_key 1000 Scenario.id1 in
  includes (or_empty (accept r)) "text/event-stream" = true ∧
  (post init r e).2 =
    mkResponse [("Mcp-Session-Id", Scenario.id1)]
      (Replied 415
         (jsonrpc_error (-32000) "Content-Type must be application/json")) ∧
  has_header "Content-Type" (post init r e).2 = false ∧
  ¬ streaming (post init r e).2 ∧
  (post init q e').2 =
    mkResponse [] (Replied 500 (jsonrpc_error (-32603) "Internal server error")) ∧
  ¬ streaming (post init q e').2.
Proof.
  repeat split; try reflexivity.
  - intros (Hs & _). apply list_elem_of_singleton in Hs. discriminate Hs.
  - intros (Hs & _). by apply elem_of_nil in Hs.
Qed.


(** *** The cleanup job *)

Lemma sweep_entry_onclose e s entry :
  onclose (sweep_entry e s entry) = onclose s.
Proof. apply shrinks_onclose, shrinks_sweep_entry. Qed.

Lemma close_transports e s k t :
  onclose s !! t = Some k →
  delete k (transports (close e t s)) = delete k (transports s).
Proof.
  intros Ho. unfold close, fire_onclose. destruct (close_notifies e); simpl; [|done].
  rewrite Ho. simpl. apply delete_delete_eq.
Qed.

Lemma close_closed e s t : closed (close e t s) = t :: closed s.
Proof.
  unfold close, fire_onclose. destruct (close_notifies e); simpl; [|done].
  by destruct (onclose s !! t).
Qed.

Lemma sweep_entry_transports e s k d :
  onclose s !! transport d = Some k →
  transports (sweep_entry e s (k, d)) =
    if expired e d then delete k (transports s) else transports s.
Proof.
  intros Ho. unfold sweep_entry. simpl. destruct (expired e d); [|done].
  simpl. by apply close_transports.
Qed.

Lemma sweep_entry_closed e s k d :
  closed (sweep_entry e s (k, d)) =
    if expired e d then transport d :: closed s else closed s.
Proof.
  unfold sweep_entry. simpl. destruct (expired e d); [|done].
  simpl. apply close_closed.
Qed.

(** The loop over a list of entries whose transports carry the onclose
    closure of their own key. *)
Lemma foldl_sweep_spec e entries s :
  (∀ k d, (k, d) ∈ entries → onclose s !! transport d = Some k) →
  let s' := foldl (sweep_entry e) s entries in
  (∀ k, (∀ d, (k, d) ∈ entries → expired e d = false) →
        transports s' !! k = transports s !! k) ∧
  (∀ k d, (k, d) ∈ entries → expired e d = true → transports s' !! k = None) ∧
  (∀ t, t ∈ closed s' ↔
        t ∈ closed s ∨ ∃ k d, (k, d) ∈ entries ∧ expired e d = true ∧ transport d = t).
Proof.
  revert s. induction entries as [|[k0 d0] entries IH]; intros s Hhook; simpl.
  - split; [done|]. split; [by intros k d ?%elem_of_nil|].
    intros t. split; [by left|]. intros [?|(k & d & ?%elem_of_nil & _)]; done.
  - assert (onclose s !! transport d0 = Some k0) as H0
      by (apply Hhook; apply elem_of_cons; by left).
    destruct (IH (sweep_entry e s (k0, d0))) as (IHa & IHb & IHc).
    { intros k d Hin. rewrite sweep_entry_onclose. apply Hhook.
      apply elem_of_cons. by right. }
    split; [|split].
    + intros k Hk. rewrite IHa.
      2:{ intros d Hin. apply Hk. apply elem_of_cons. by right. }
      rewrite (sweep_entry_transports _ _ _ _ H0).
      destruct (expired e d0) eqn:E; [|done].
      destruct (decide (k = k0)) as [->|Hne]; [|by rewrite lookup_delete_ne].
      rewrite (Hk d0) in E; [done | apply elem_of_cons; by left].
    + intros k d Hin Hexp. apply elem_of_cons in Hin as [[= -> ->]|Hin].
      * eapply lookup_weaken_None;
          [|apply shrinks_transports, shrinks_foldl_sweep].
        rewrite (sweep_entry_transports _ _ _ _ H0), Hexp.
        apply lookup_delete_eq.
      * by eapply IHb.
    + intros t. rewrite IHc, sweep_entry_closed. split.
      * intros [Ht|(k & d & Hin & Hexp & <-)].
        -- destruct (expired e d0) eqn:E; [|by left].
           apply elem_of_cons in Ht as [->|Ht]; [|by left].
           right. exists k0, d0. split; [apply elem_of_cons; by left | done].
        -- right. exists k, d. split; [apply elem_of_cons; by right | done].
      * intros [Ht|(k & d & Hin & Hexp & <-)].
        -- left. destruct (expired e d0); [apply elem_of_cons; by right | done].
        -- apply elem_of_cons in Hin as [[= -> ->]|Hin].
           ++ left. rewrite Hexp. apply elem_of_cons. by left.
           ++ right. by exists k, d.
Qed.

Lemma sweep_spec s e :
  Inv s →
  (∀ k d, transports s !! k = Some d → expired e d = false →
          transports (sweep s e) !! k = Some d) ∧
  (∀ k d, transports s !! k = Some d → expired e d = true →
          transports (sweep s e) !! k = None) ∧
  (∀ t, t ∈ closed (sweep s e) ↔
        t ∈ closed s ∨
        ∃ k d, transports s !! k = Some d ∧ expired e d = true ∧ transport d = t).
Proof.
  intros HI.
  destruct (foldl_sweep_spec e (map_to_list (transports s)) s) as (Ha & Hb & Hc).
  { intros k d Hin%elem_of_map_to_list. by eapply inv_hook. }
  split; [|split].
  - intros k d Hd Hexp. unfold sweep. rewrite Ha; [done|].
    intros d' Hin%elem_of_map_to_list. congruence.
  - intros k d Hd Hexp. eapply Hb; [|done]. by apply elem_of_map_to_list.
  - intros t. unfold sweep. rewrite Hc.
    split; (intros [?|(k & d & Hin & ?)]; [by left|]; right; exists k, d;
            split; [by apply elem_of_map_to_list | done]).
Qed.

(** C6.  At a tick of the cleanup timer, a session whose lastActivity lies
    more than 30 minutes before the tick has its transport closed and is
    removed from the store; a session whose lastActivity lies at most 30
    minutes back keeps its record as it is, and its transport is not closed
    by the tick.  The tick takes nothing from any request, and the timer
    is set to 5 minutes. *)
Theorem sweep_expires_idle_sessions s e k d :
  reachable s →
  transports s !! k = Some d →
  (now e - lastActivity d > 30 * 60 * 1000 →
     transports (step s (Tick e)) !! k = None ∧
     transport d ∈ closed (step s (Tick e))) ∧
  (now e - lastActivity d ≤ 30 * 60 * 1000 →
     transports (step s (Tick e)) !! k = Some d ∧
     (transport d ∈ closed (step s (Tick e)) → transport d ∈ closed s)) ∧
  sessionTimeout = 30 * 60 * 1000 ∧
  sweepInterval = 5 * 60 * 1000.
Proof.
  intros Hr Hd. pose proof (reachable_Inv _ Hr) as HI.
  destruct (sweep_spec s e HI) as (Hlive & Hgone & Hclosed). simpl.
  split; [|split; [|done]].
  - intros Hlt. assert (expired e d = true) as Hexp.
    { unfold expired, sessionTimeout. apply Z.gtb_lt. lia. }
    split; [by eapply Hgone|].
    apply Hclosed. right. by exists k, d.
  - intros Hle. assert (expired e d = false) as Hexp.
    { unfold expired, sessionTimeout. rewrite Z.gtb_ltb. apply Z.ltb_ge. lia. }
    split; [by eapply Hlive|].
    intros [Hin|(k' & d' & Hd' & Hexp' & Heq)]%Hclosed; [done|].
    pose proof (inv_hook _ HI _ _ Hd) as H1.
    pose proof (inv_hook _ HI _ _ Hd') as H2.
    rewrite Heq in H2. assert (k' = k) as -> by congruence.
    congruence.
Qed.

Lemma sweep_expires_idle_sessions_witness :
  let s := (post init (Scenario.json_post None) (Scenario.env 1000 Scenario.id1)).1 in
  (transports (step s (Tick (Scenario.env 1801001 Scenario.id2))) !! Scenario.id1 = None ∧
   0%nat ∈ closed (step s (Tick (Scenario.env 1801001 Scenario.id2)))) ∧
  transports (step s (Tick (Scenario.env 1801000 Scenario.id2))) !! Scenario.id1
    = Some (mkSession 0 1 1000).
Proof.
  intros s.
  assert (reachable s) as Hr by one_session.
  split.
  - apply (proj1 (sweep_expires_idle_sessions s (Scenario.env 1801001 Scenario.id2)
                    Scenario.id1 (mkSession 0 1 1000)
                    Hr eq_refl)).
    simpl. lia.
  - apply (proj1 (proj2 (sweep_expires_idle_sessions s
                           (Scenario.env 1801000 Scenario.id2)
                           Scenario.id1 (mkSession 0 1 1000)
                           Hr eq_refl))).
    simpl. lia.
Defined.


(** *** Session IDs along a run *)

Lemma touch_issued s k v t s' : touch s k v t = Some s' → issued s' = issued s.
Proof.
  destruct v; simpl; try done; intros [= <-]; [done|]. by case_bool_decide.
Qed.

Lemma touch_absent s k v t s' k' :
  get s k = v → touch s k v t = Some s' →
  transports s !! k' = None → transports s' !! k' = None.
Proof.
  intros Hv Ht Hn. destruct v as [d|name| |]; simpl in Ht; try done.
  - injection Ht as <-. apply get_Session_inv in Hv. simpl.
    rewrite lookup_insert_ne; [done | congruence].
  - injection Ht as <-. by case_bool_decide.
Qed.

Lemma shrinks_absent s s' k :
  shrinks s s' → transports s !! k = None → transports s' !! k = None.
Proof. intros Hs Hn. eapply lookup_weaken_None; [done | apply Hs]. Qed.

(** What one event does to the log of issued IDs. *)
Lemma issued_step s ev :
  issued (step s ev) = issued s ∨
  ∃ r e, ev = Post r e ∧ lookup_session s (mcp_session_id r) = None ∧
         issued (step s ev) = uuid e :: issued s.
Proof.
  destruct ev as [r e|r e|e|t]; simpl.
  - unfold post, resolve.
    destruct (lookup_session s (mcp_session_id r)) as [[k v]|] eqn:E.
    + left. destruct (touch s k v (now e)) eqn:Et; [|done].
      destruct (negb _); simpl; by eapply touch_issued.
    + right. exists r, e. split; [done|]. split; [done|].
      destruct (createToolkit e _); [|done].
      destruct (connect_ok e); [|done]. by destruct (negb _).
  - left. unfold handleSessionRequest.
    destruct (lookup_session s (mcp_session_id r)) as [[k v]|]; [|done].
    destruct (touch s k v (now e)) as [s1|] eqn:Et; [|done].
    pose proof (touch_issued _ _ _ _ _ Et) as Hi.
    destruct (method r); simpl; try done.
    + by destruct (negb _).
    + destruct (transport_of v); [|done]. simpl.
      rewrite <- Hi. apply shrinks_issued, shrinks_close.
  - left. apply shrinks_issued, shrinks_sweep.
  - left. apply shrinks_issued, shrinks_fire_onclose.
Qed.

Lemma issued_step_mono s ev k : k ∈ issued s → k ∈ issued (step s ev).
Proof.
  intros Hk. destruct (issued_step s ev) as [-> | (r & e & _ & _ & ->)];
    [done | apply elem_of_cons; by right].
Qed.

(** An ID that was issued and is no longer in the store stays out of it,
    whatever the event, as long as a newly generated UUID is new. *)
Lemma step_never_revives s ev k :
  k ∈ issued s → transports s !! k = None → fresh s [ev] →
  transports (step s ev) !! k = None.
Proof.
  intros Hk Hn [Hfresh _].
  destruct ev as [r e|r e|e|t]; simpl.
  - destruct Hfresh as [_ Hfresh]. unfold post, resolve.
    destruct (lookup_session s (mcp_session_id r)) as [[k' v]|] eqn:E.
    + apply lookup_session_key in E as (_ & Hv & _).
      destruct (touch s k' v (now e)) eqn:Et; [|done].
      destruct (negb _); simpl; by eapply touch_absent.
    + specialize (Hfresh eq_refl).
      assert (uuid e ≠ k) as Hne by (intros <-; done).
      destruct (createToolkit e _); [|done].
      destruct (connect_ok e); [|done].
      destruct (negb _); simpl; by rewrite lookup_insert_ne.
  - unfold handleSessionRequest.
    destruct (lookup_session s (mcp_session_id r)) as [[k' v]|] eqn:E; [|done].
    apply lookup_session_key in E as (_ & Hv & _).
    destruct (touch s k' v (now e)) as [s1|] eqn:Et; [|done].
    pose proof (touch_absent _ _ _ _ _ k Hv Et Hn) as Hn1.
    destruct (method r); try done.
    + by destruct (negb _).
    + destruct (transport_of v); [|done].
      eapply shrinks_absent; [|exact Hn1].
      eapply shrinks_trans; [apply shrinks_close | apply shrinks_delete].
  - eapply shrinks_absent; [apply shrinks_sweep | done].
  - eapply shrinks_absent; [apply shrinks_fire_onclose | done].
Qed.

Lemma run_never_revives evs s k :
  k ∈ issued s → transports s !! k = None → fresh s evs →
  transports (run s evs) !! k = None.
Proof.
  revert s. induction evs as [|ev evs IH]; intros s Hk Hn Hf; [done|].
  destruct Hf as [Hev Hrest]. simpl. apply IH; [|by apply step_never_revives|done].
  by apply issued_step_mono.
Qed.

Lemma fresh_wf s evs : fresh s evs → Forall wf_event evs.
Proof.
  revert s. induction evs as [|ev evs IH]; intros s Hf; [constructor|].
  destruct Hf as [Hev Hrest]. constructor; [|by eapply IH].
  destruct ev; simpl; [by destruct Hev | done..].
Qed.

Lemma NoDup_issued_run evs s :
  NoDup (issued s) → fresh s evs → NoDup (issued (run s evs)).
Proof.
  revert s. induction evs as [|ev evs IH]; intros s Hnd Hf; [done|].
  destruct Hf as [Hev Hrest]. simpl. apply IH; [|done].
  destruct (issued_step s ev) as [-> | (r & e & -> & Hl & ->)]; [done|].
  apply NoDup_cons. split; [|done]. destruct Hev as [_ Hev]. by apply Hev.
Qed.

(** C8.  Along every run in which [randomUUID] never repeats itself: the
    IDs handed out are pairwise distinct and every live session is
    registered under one of them, so no creation lands on a live ID; two
    different live IDs never lead to the same transport; and an ID whose
    session has been removed stays out of the store for the rest of the
    run, so a later GET or DELETE bearing it is rejected as unknown and a
    later POST bearing it is not resolved to any session. *)
Theorem session_ids_unique_and_never_revived evs :
  fresh init evs →
  let s := run init evs in
  NoDup (issued s) ∧
  (∀ k d, transports s !! k = Some d → k ∈ issued s) ∧
  (∀ k1 k2 d1 d2, transports s !! k1 = Some d1 → transports s !! k2 = Some d2 →
                  transport d1 = transport d2 → k1 = k2) ∧
  (∀ k evs', k ∈ issued s → transports s !! k = None → fresh s evs' →
     let s' := run s evs' in
     transports s' !! k = None ∧
     lookup_session s' (Some k) = None ∧
     ∀ r e, mcp_session_id r = Some k →
            handleSessionRequest s' r e =
              (s', mkResponse []
                     (Replied 400
                        (jsonrpc_error (-32000) "Invalid or missing session ID")))).
Proof.
  intros Hf s.
  assert (Inv s) as HI by (apply Inv_run; [apply Inv_init | by eapply fresh_wf]).
  split; [apply NoDup_issued_run; [constructor | done]|].
  split; [apply HI|]. split.
  - intros k1 k2 d1 d2 H1 H2 Heq.
    pose proof (inv_hook _ HI _ _ H1) as Ho1.
    pose proof (inv_hook _ HI _ _ H2) as Ho2. congruence.
  - intros k evs' Hk Hn Hf' s'.
    assert (transports s' !! k = None) as Hn' by by apply run_never_revives.
    assert (is_uuid k = true) as Hu.
    { assert (∀ evs0 s0, (∀ k, k ∈ issued s0 → is_uuid k = true) →
                fresh s0 evs0 → ∀ k, k ∈ issued (run s0 evs0) → is_uuid k = true)
        as Hall.
      { induction evs0 as [|ev evs0 IH]; intros s0 H0 Hf0; [done|].
        destruct Hf0 as [Hev Hrest]. simpl. apply IH; [|done].
        intros k0. destruct (issued_step s0 ev) as [-> | (r & e & -> & _ & ->)];
          [apply H0|].
        intros [->|?]%elem_of_cons; [by destruct Hev | by apply H0]. }
      apply (Hall evs init); [by intros ? ?%elem_of_nil | done | done]. }
    split; [done|]. split; [by apply lookup_session_stale|].
    intros r e Hh. by apply session_request_unknown_uuid with k.
Qed.

Lemma session_ids_unique_and_never_revived_witness :
  let evs := [Post (Scenario.json_post None) (Scenario.env 1000 Scenario.id1);
              Post (Scenario.json_post None) (Scenario.env 1100 Scenario.id2);
              SessionRequest (Scenario.delete_request (Some Scenario.id1))
                             (Scenario.env 1200 Scenario.id1)] in
  let later := [Post (Scenario.json_post (Some Scenario.id1))
                     (Scenario.env 1300 Scenario.id3)] in
  NoDup (issued (run init evs)) ∧
  transports (run (run init evs) later) !! Scenario.id1 = None.
Proof.
  intros evs later.
  assert (fresh init evs) as Hf.
  { repeat split; try (intros _; vm_compute);
      repeat (apply not_elem_of_cons; split; [discriminate|]);
      apply not_elem_of_nil. }
  destruct (session_ids_unique_and_never_revived evs Hf) as (Hnd & _ & _ & Hgone).
  split; [exact Hnd|].
  apply (Hgone Scenario.id1 later).
  - vm_compute. apply elem_of_cons. right. apply elem_of_cons. by left.
  - reflexivity.
  - repeat split. intros _. vm_compute.
    repeat (apply not_elem_of_cons; split; [discriminate|]).
    apply not_elem_of_nil.
Defined.

End ServerFacts.

Module ThreeMapsFacts.
Import Js Http ThreeMaps JsFacts.

Lemma sessions_lookup_key s h k v :
  lookup_session s h = Some (k, v) → h = Some k ∧ get s k = v ∧ truthy v = true.
Proof.
  unfold lookup_session. destruct h as [k'|]; [|done].
  destruct (truthy_string (Some k') && truthy (get s k')) eqn:E; [|done].
  intros [= <- <-]. by apply andb_true_iff in E as [_ ?].
Qed.

Lemma sessions_lookup_plain s h k v :
  lookup_session s h = Some (k, v) → inherited k = false →
  ∃ t, v = Transport t ∧ sessions s !! k = Some t.
Proof.
  intros (_ & <- & Ht)%sessions_lookup_key Hk. unfold get in *.
  destruct (sessions s !! k) as [t|]; [by eauto|].
  rewrite Hk in Ht. done.
Qed.

(** *** The key sets of the three objects *)

Lemma same_keys_init : same_keys init.
Proof. split; reflexivity. Qed.

Lemma same_keys_forget k s : same_keys s → same_keys (forget k s).
Proof.
  intros [H1 H2]. split; simpl; rewrite !dom_delete_L; congruence.
Qed.

Lemma same_keys_fire_onclose t s : same_keys s → same_keys (fire_onclose t s).
Proof.
  intros H. unfold fire_onclose. destruct (onclose s !! t); [|done].
  by apply same_keys_forget.
Qed.

Lemma same_keys_close e t s : same_keys s → same_keys (close e t s).
Proof.
  intros H. unfold close. destruct (close_notifies e); [|done].
  by apply same_keys_fire_onclose.
Qed.

(** Writing the activity of a registered session adds no key. *)
Lemma same_keys_touch k t now s :
  sessions s !! k = Some t → same_keys s → same_keys (touch k now s).
Proof.
  intros Hk [H1 H2]. unfold touch. case_bool_decide; [done|].
  split; simpl; [done|]. rewrite dom_insert_L, <- H2.
  symmetry. apply subseteq_union_1_L, singleton_subseteq_l.
  by apply elem_of_dom_2 in Hk.
Qed.

Lemma same_keys_sweep_from e ids s :
  same_keys s → same_keys (sweep_from e s ids).
Proof.
  revert s. induction ids as [|id ids IH]; intros s H; simpl; [done|].
  unfold sweep_entry. destruct (expired e s id); [|by apply IH].
  destruct (sessions s !! id); [|done].
  by apply IH, same_keys_forget, same_keys_close.
Qed.

Lemma same_keys_post s r e :
  same_keys s → plain_event (Post r e) → same_keys (post s r e).1.
Proof.
  intros H Hplain. unfold post, resolve.
  destruct (lookup_session s (mcp_session_id r)) as [[k v]|] eqn:E.
  - pose proof E as (Hh & _)%sessions_lookup_key.
    destruct (sessions_lookup_plain _ _ _ _ E (Hplain _ Hh)) as (t & -> & Hk).
    destruct (negb _); exact (same_keys_touch k t (now e) s Hk H).
  - unfold createToolkit.
    destruct (truthy_string (RECALL_PRIVATE_KEY e)); [|exact H].
    destruct (connect_ok e); [|exact H].
    destruct H as [H1 H2].
    destruct (negb _); split; simpl; rewrite !dom_insert_L; congruence.
Qed.

Lemma same_keys_handleSessionRequest s r e :
  same_keys s → plain_event (SessionRequest r e) →
  same_keys (handleSessionRequest s r e).1.
Proof.
  intros H Hplain. unfold handleSessionRequest.
  destruct (lookup_session s (mcp_session_id r)) as [[k v]|] eqn:E; [|done].
  pose proof E as (Hh & _)%sessions_lookup_key.
  destruct (sessions_lookup_plain _ _ _ _ E (Hplain _ Hh)) as (t & -> & Hk).
  pose proof (same_keys_touch k t (now e) s Hk H) as H1.
  destruct (method r); try done.
  - by destruct (negb _).
  - by apply same_keys_forget, same_keys_close.
Qed.

Lemma same_keys_step s ev :
  same_keys s → plain_event ev → same_keys (step s ev).
Proof.
  intros H Hplain. destruct ev as [r e|r e|e|t]; simpl.
  - by apply same_keys_post.
  - by apply same_keys_handleSessionRequest.
  - by apply same_keys_sweep_from.
  - by apply same_keys_fire_onclose.
Qed.

(** As long as no request names an inherited property, the three objects
    keep the same keys. *)
Lemma same_keys_run evs s :
  same_keys s → Forall plain_event evs → same_keys (run s evs).
Proof.
  intros H Hall. revert s H.
  induction Hall as [|ev evs Hev _ IH]; intros s H; simpl; [done|].
  by apply IH, same_keys_step.
Qed.

(** C9 at the failing input.  With one session registered the three
    objects have the same keys.  A DELETE whose Mcp-Session-Id is
    "constructor" passes the guard on the inherited
    [sessions["constructor"]]; [lastActivity["constructor"] = Date.now()]
    then creates an own property before [transport.close()] throws, and the
    handler completes with the 500 response.  Afterwards [lastActivity] has
    the key "constructor" and [sessions] and [toolkits] do not. *)
Theorem delete_constructor_splits_key_sets :
  let s := (post init (Scenario.json_post None) (Scenario.env 1000 Scenario.id1)).1 in
  let r := Scenario.delete_request (Some "constructor") in
  let s' := (handleSessionRequest s r (Scenario.env 2000 Scenario.id2)).1 in
  same_keys s ∧
  (handleSessionRequest s r (Scenario.env 2000 Scenario.id2)).2 =
    mkResponse [] (Replied 500 (jsonrpc_error (-32603) "Internal server error")) ∧
  lastActivity s' !! "constructor" = Some 2000 ∧
  sessions s' !! "constructor" = None ∧
  toolkits s' !! "constructor" = None ∧
  ¬ same_keys s'.
Proof.
  intros s r s'.
  assert (lastActivity s' !! "constructor" = Some 2000) as Hl by reflexivity.
  assert (sessions s' !! "constructor" = None) as Hs by reflexivity.
  split.
  { apply (same_keys_run [Post (Scenario.json_post None)
                               (Scenario.env 1000 Scenario.id1)] init);
      [apply same_keys_init|].
    repeat constructor. intros k Hk. discriminate Hk. }
  split; [reflexivity|]. split; [exact Hl|]. split; [exact Hs|].
  split; [reflexivity|].
  intros [_ H2].
  apply not_elem_of_dom in Hs. apply Hs. rewrite H2.
  apply elem_of_dom. by eexists.
Qed.

(** *** The invariant of the three-object server *)

Lemma Inv_three_init : Inv init.
Proof. split; simpl; intros *; by rewrite lookup_empty. Qed.

Lemma Inv_three_touch k now s : Inv s → Inv (touch k now s).
Proof.
  intros [Hk Ho Ha Ht Hl]. unfold touch. case_bool_decide; [by split|].
  split; simpl; try done.
  intros k' t Hs. destruct (decide (k = k')) as [->|Hne].
  - rewrite lookup_insert_eq. by eexists.
  - rewrite lookup_insert_ne; [by eapply Hl | done].
Qed.

Lemma Inv_three_forget k s : Inv s → Inv (forget k s).
Proof.
  intros [Hk Ho Ha Ht Hl]. split; simpl.
  - intros k' t [_ Hs]%lookup_delete_Some. by eapply Hk.
  - intros k' t [_ Hs]%lookup_delete_Some. by eapply Ho.
  - done.
  - intros k' t [Hne Hs]%lookup_delete_Some.
    rewrite lookup_delete_ne; [by eapply Ht | done].
  - intros k' t [Hne Hs]%lookup_delete_Some.
    rewrite lookup_delete_ne; [by eapply Hl | done].
Qed.

Lemma Inv_three_log_close t s : Inv s → Inv (log_close t s).
Proof. by intros []. Qed.

Lemma Inv_three_fire_onclose t s : Inv s → Inv (fire_onclose t s).
Proof.
  intros H. unfold fire_onclose. destruct (onclose s !! t); [|done].
  by apply Inv_three_forget.
Qed.

Lemma Inv_three_close e t s : Inv s → Inv (close e t s).
Proof.
  intros H. unfold close. destruct (close_notifies e).
  - by apply Inv_three_fire_onclose, Inv_three_log_close.
  - by apply Inv_three_log_close.
Qed.

Lemma Inv_three_grow s u n : Inv s → Inv (Nat.iter n alloc (log_uuid u s)).
Proof.
  intros [Hk Ho Ha Ht Hl]. induction n as [|n IH]; simpl; [by split|].
  destruct IH as [Hk' Ho' Ha' Ht' Hl']. split; simpl; eauto.
  intros t k H. apply Ha' in H. lia.
Qed.

Lemma Inv_three_register s e :
  Inv s → is_uuid (uuid e) = true →
  Inv (set_onclose (heap_next s) (uuid e)
         (set_lastActivity <[uuid e := now e]>
            (set_toolkits <[uuid e := S (heap_next s)]>
               (set_sessions <[uuid e := heap_next s]>
                  (alloc (alloc (log_uuid (uuid e) s))))))).
Proof.
  intros [Hk Ho Ha Ht Hl] Hu. split; simpl.
  - intros k t. rewrite lookup_insert. case_decide; [by subst | apply Hk].
  - intros k t. rewrite lookup_insert. case_decide.
    + intros [= <-]. subst. by rewrite lookup_insert_eq.
    + intros Hs. pose proof (Ho _ _ Hs) as Hc. pose proof (Ha _ _ Hc).
      rewrite lookup_insert_ne; [done | lia].
  - intros t k. rewrite lookup_insert. case_decide; [lia|].
    intros Hc. apply Ha in Hc. lia.
  - intros k t. rewrite !lookup_insert. case_decide; [by eexists | apply Ht].
  - intros k t. rewrite !lookup_insert. case_decide; [by eexists | apply Hl].
Qed.

Lemma Inv_three_sweep_from e ids s : Inv s → Inv (sweep_from e s ids).
Proof.
  revert s. induction ids as [|id ids IH]; intros s H; simpl; [done|].
  unfold sweep_entry. destruct (expired e s id); [|by apply IH].
  destruct (sessions s !! id); [|done].
  by apply IH, Inv_three_forget, Inv_three_close.
Qed.

Lemma Inv_three_step s ev : Inv s → wf_event ev → Inv (step s ev).
Proof.
  intros H Hwf. destruct ev as [r e|r e|e|t]; simpl in *.
  - unfold post, resolve.
    destruct (lookup_session s (mcp_session_id r)) as [[k v]|].
    + destruct (negb _); exact (Inv_three_touch k (now e) s H).
    + unfold createToolkit.
      destruct (truthy_string (RECALL_PRIVATE_KEY e));
        [|exact (Inv_three_grow s (uuid e) 1 H)].
      destruct (connect_ok e); [|exact (Inv_three_grow s (uuid e) 2 H)].
      destruct (negb _); exact (Inv_three_register s e H Hwf).
  - unfold handleSessionRequest.
    destruct (lookup_session s (mcp_session_id r)) as [[k v]|]; [|done].
    pose proof (Inv_three_touch k (now e) s H) as H1.
    destruct (method r); try done.
    + by destruct (negb _).
    + destruct v; try done. by apply Inv_three_forget, Inv_three_close.
  - by apply Inv_three_sweep_from.
  - by apply Inv_three_fire_onclose.
Qed.

Lemma reachable_three_Inv s : reachable s → Inv s.
Proof.
  intros (evs & Hwf & ->). generalize Inv_three_init. generalize init.
  induction Hwf as [|ev evs Hev _ IH]; intros s H; simpl; [done|].
  by apply IH, Inv_three_step.
Qed.

Lemma sessions_lookup_live s k t :
  is_uuid k = true → sessions s !! k = Some t →
  lookup_session s (Some k) = Some (k, Transport t).
Proof.
  intros Hu Hs. unfold lookup_session, get.
  by rewrite (is_uuid_truthy _ Hu), Hs.
Qed.

(** *** The two checks, as in the single-object server *)

(** The content-type check comes after session resolution here too. *)
Lemma three_maps_post_non_json s r e :
  lookup_session s (mcp_session_id r) = None →
  truthy_string (RECALL_PRIVATE_KEY e) = true → connect_ok e = true →
  includes (or_empty (content_type r)) "application/json" = false →
  (post s r e).2 = mkResponse [("Mcp-Session-Id", uuid e)] bad_content_type ∧
  sessions (post s r e).1 = <[uuid e := heap_next s]> (sessions s) ∧
  toolkits (post s r e).1 = <[uuid e := S (heap_next s)]> (toolkits s) ∧
  lastActivity (post s r e).1 = <[uuid e := now e]> (lastActivity s).
Proof.
  intros Hl Hk Hc Hct. unfold post, resolve, createToolkit.
  by rewrite Hl, Hk, Hc, Hct.
Qed.

(** The Accept check comes after the activity update here too. *)
Lemma three_maps_get_not_acceptable s r e k t :
  reachable s → method r = GET → mcp_session_id r = Some k →
  sessions s !! k = Some t →
  includes (or_empty (accept r)) "text/event-stream" = false →
  handleSessionRequest s r e =
    (set_lastActivity <[k := now e]> s, mkResponse [] bad_accept).
Proof.
  intros Hr Hm Hh Hs Ha. pose proof (reachable_three_Inv _ Hr) as HI.
  pose proof (inv_sessions _ HI _ _ Hs) as Hu.
  unfold handleSessionRequest.
  rewrite Hh, (sessions_lookup_live _ _ _ Hu Hs), Hm, Ha. simpl.
  unfold touch. rewrite bool_decide_eq_false_2; [done|].
  intros ->. discriminate (is_uuid_length _ Hu).
Qed.


(** *** The cleanup job over the three objects *)

(** One round on an idle session whose transport carries the onclose
    closure of its own key. *)
Lemma sweep_entry_idle e s id t :
  expired e s id = true → sessions s !! id = Some t →
  onclose s !! t = Some id →
  ∃ s1, sweep_entry e s id = Some s1 ∧
        sessions s1 = delete id (sessions s) ∧
        toolkits s1 = delete id (toolkits s) ∧
        lastActivity s1 = delete id (lastActivity s) ∧
        onclose s1 = onclose s ∧
        closed s1 = t :: closed s.
Proof.
  intros Hexp Hs Ho. unfold sweep_entry. rewrite Hexp, Hs.
  eexists. split; [reflexivity|].
  unfold close, fire_onclose. destruct (close_notifies e); simpl.
  - rewrite Ho. simpl. by rewrite !delete_delete_eq.
  - done.
Qed.

Lemma expired_ext e s s' id :
  lastActivity s' !! id = lastActivity s !! id → expired e s' id = expired e s id.
Proof. intros H. unfold expired. by rewrite H. Qed.

Lemma sweep_from_spec e ids s :
  NoDup ids →
  (∀ id, id ∈ ids → ∃ t, sessions s !! id = Some t ∧ onclose s !! t = Some id) →
  let s' := sweep_from e s ids in
  (∀ k, k ∈ ids → expired e s k = true →
        sessions s' !! k = None ∧ toolkits s' !! k = None ∧
        lastActivity s' !! k = None) ∧
  (∀ k, (k ∈ ids → expired e s k = false) →
        sessions s' !! k = sessions s !! k ∧
        toolkits s' !! k = toolkits s !! k ∧
        lastActivity s' !! k = lastActivity s !! k) ∧
  (∀ t, t ∈ closed s' ↔
        t ∈ closed s ∨
        ∃ k, k ∈ ids ∧ expired e s k = true ∧ sessions s !! k = Some t).
Proof.
  intros Hnd. revert s.
  induction Hnd as [|id ids Hnotin Hnd IH]; intros s Hreg; simpl.
  - split; [by intros k ?%elem_of_nil|]. split; [done|].
    intros t. split; [by left|]. intros [?|(k & ?%elem_of_nil & _)]; done.
  - destruct (Hreg id) as (t0 & Hs0 & Ho0); [apply elem_of_cons; by left|].
    destruct (expired e s id) eqn:Hexp.
    + destruct (sweep_entry_idle e s id t0 Hexp Hs0 Ho0)
        as (s1 & -> & Hs1 & Ht1 & Hl1 & Ho1 & Hc1).
      assert (∀ k, k ∈ ids → sessions s1 !! k = sessions s !! k ∧
                             toolkits s1 !! k = toolkits s !! k ∧
                             lastActivity s1 !! k = lastActivity s !! k) as Hsame.
      { intros k Hin. assert (id ≠ k) by (intros ->; done).
        by rewrite Hs1, Ht1, Hl1, !lookup_delete_ne. }
      destruct (IH s1) as (IHa & IHb & IHc).
      { intros k Hin. destruct (Hreg k) as (t & Hs & Ho);
          [apply elem_of_cons; by right|].
        exists t. destruct (Hsame k Hin) as (-> & _). by rewrite Ho1. }
      split; [|split].
      * intros k Hin Hk. destruct (decide (k = id)) as [->|Hne].
        -- destruct (IHb id) as (-> & -> & ->); [done|].
           by rewrite Hs1, Ht1, Hl1, !lookup_delete_eq.
        -- apply elem_of_cons in Hin as [?|Hin]; [done|].
           apply IHa; [done|]. rewrite <- Hk. apply expired_ext.
           by destruct (Hsame k Hin) as (_ & _ & ->).
      * intros k Hk.
        assert (k ≠ id) as Hne.
        { intros ->. rewrite Hk in Hexp; [done | apply elem_of_cons; by left]. }
        destruct (IHb k) as (-> & -> & ->).
        { intros Hin. rewrite <- Hk; [|apply elem_of_cons; by right].
          apply expired_ext. by destruct (Hsame k Hin) as (_ & _ & ->). }
        by rewrite Hs1, Ht1, Hl1, !lookup_delete_ne.
      * intros t. rewrite IHc, Hc1. split.
        -- intros [[->|Ht]%elem_of_cons|(k & Hin & Hk & Hs)].
           ++ right. exists id. split; [apply elem_of_cons; by left | done].
           ++ by left.
           ++ right. exists k. destruct (Hsame k Hin) as (Hs' & _ & Hl').
              split; [apply elem_of_cons; by right|].
              split; [by rewrite <- (expired_ext e s s1 k Hl') | by rewrite <- Hs'].
        -- intros [Ht|(k & Hin & Hk & Hs)].
           ++ left. apply elem_of_cons. by right.
           ++ apply elem_of_cons in Hin as [->|Hin].
              ** left. apply elem_of_cons. left. congruence.
              ** right. exists k. destruct (Hsame k Hin) as (Hs' & _ & Hl').
                 split; [done|].
                 split; [by rewrite (expired_ext e s s1 k Hl') | by rewrite Hs'].
    + unfold sweep_entry. rewrite Hexp.
      destruct (IH s) as (IHa & IHb & IHc).
      { intros k Hin. apply Hreg. apply elem_of_cons. by right. }
      split; [|split].
      * intros k [->|Hin]%elem_of_cons Hk; [congruence | by apply IHa].
      * intros k Hk. apply IHb. intros Hin. apply Hk. apply elem_of_cons. by right.
      * intros t. rewrite IHc. split.
        -- intros [?|(k & Hin & ?)]; [by left|]. right. exists k.
           split; [apply elem_of_cons; by right | done].
        -- intros [?|(k & [->|Hin]%elem_of_cons & Hk & ?)];
             [by left | congruence | right; by exists k].
Qed.

(** The counterpart of C6 for the three-object server. *)
Lemma three_maps_sweep_expires_idle_sessions s e k t at_ :
  reachable s →
  sessions s !! k = Some t → lastActivity s !! k = Some at_ →
  (now e - at_ > 30 * 60 * 1000 →
     sessions (step s (Tick e)) !! k = None ∧
     toolkits (step s (Tick e)) !! k = None ∧
     lastActivity (step s (Tick e)) !! k = None ∧
     t ∈ closed (step s (Tick e))) ∧
  (now e - at_ ≤ 30 * 60 * 1000 →
     sessions (step s (Tick e)) !! k = Some t ∧
     toolkits (step s (Tick e)) !! k = toolkits s !! k ∧
     lastActivity (step s (Tick e)) !! k = Some at_ ∧
     (t ∈ closed (step s (Tick e)) → t ∈ closed s)) ∧
  sweepInterval = 5 * 60 * 1000.
Proof.
  intros Hr Hs Hl. pose proof (reachable_three_Inv _ Hr) as HI. simpl.
  destruct (sweep_from_spec e (map_to_list (sessions s)).*1 s)
    as (Hgone & Hlive & Hclosed).
  { apply NoDup_fst_map_to_list. }
  { intros id ((id' & t') & -> & Hin%elem_of_map_to_list)%list_elem_of_fmap.
    exists t'. split; [done | by eapply inv_onclose]. }
  assert (k ∈ (map_to_list (sessions s)).*1) as Hin.
  { apply list_elem_of_fmap. exists (k, t). split; [done|].
    by apply elem_of_map_to_list. }
  split; [|split; [|done]].
  - intros Hgt. assert (expired e s k = true) as Hexp.
    { unfold expired, sessionTimeout. rewrite Hl. apply Z.gtb_lt. lia. }
    destruct (Hgone k Hin Hexp) as (? & ? & ?).
    repeat (split; [done|]). apply Hclosed. right. by exists k.
  - intros Hle. assert (expired e s k = false) as Hexp.
    { unfold expired, sessionTimeout. rewrite Hl, Z.gtb_ltb. apply Z.ltb_ge. lia. }
    destruct (Hlive k (λ _, Hexp)) as (H1 & H2 & H3). unfold sweep.
    rewrite H1, H2, H3. repeat (split; [done|]).
    intros [?|(k' & _ & Hexp' & Hs')]%Hclosed; [done|].
    pose proof (inv_onclose _ HI _ _ Hs) as Ho.
    pose proof (inv_onclose _ HI _ _ Hs') as Ho'.
    assert (k' = k) as -> by congruence. congruence.
Qed.

End ThreeMapsFacts.

(** * Further properties *)

Module JsMoreFacts.
Import Js.

Lemma prefix_spec a b : String.prefix a b = true ↔ ∃ rest, b = a +:+ rest.
Proof.
  revert b. induction a as [|c a IH]; intros b; simpl.
  - destruct b; (split; [intros _; by eexists | done]).
  - destruct b as [|c' b]; simpl.
    + split; [done | by intros [rest ?]].
    + destruct (Ascii.ascii_dec c c') as [->|Hne].
      * rewrite IH. split; intros [rest Hr]; exists rest;
          [by rewrite Hr | by injection Hr].
      * split; [done | intros [rest [=]]; done].
Qed.

Lemma includes_nil sub : includes "" sub = String.prefix sub "".
Proof. simpl. apply orb_false_r. Qed.

Lemma includes_cons c s sub :
  includes (String c s) sub = String.prefix sub (String c s) || includes s sub.
Proof. reflexivity. Qed.

Lemma includes_spec s sub :
  includes s sub = true ↔ ∃ before after, s = before +:+ sub +:+ after.
Proof.
  induction s as [|c s IH].
  - rewrite includes_nil, prefix_spec. split.
    + intros [rest ->]. by exists "", rest.
    + intros (before & after & H). destruct before; [by exists after|discriminate H].
  - rewrite includes_cons, orb_true_iff, IH, prefix_spec. split.
    + intros [[rest ->]|(before & after & ->)].
      * by exists "", rest.
      * by exists (String c before), after.
    + intros (before & after & H). destruct before as [|c' before]; simpl in H.
      * left. by exists after.
      * right. injection H as -> ->. by exists before, after.
Qed.

End JsMoreFacts.

Module ServerMoreFacts.
Import Js Http Server JsFacts ServerFacts.

(** *** What a request can and cannot do *)

(** X1.  When [toolkit.connect(transport)] rejects on the new-session
    branch, the POST handler answers 500 with code -32603 and sets no
    header; nothing has been registered, no onclose closure installed and
    no transport closed. *)
Theorem post_connect_failure_registers_nothing s r e :
  lookup_session s (mcp_session_id r) = None →
  connect_ok e = false →
  (post s r e).2 =
    mkResponse [] (Replied 500 (jsonrpc_error (-32603) "Internal server error")) ∧
  transports (post s r e).1 = transports s ∧
  onclose (post s r e).1 = onclose s ∧
  closed (post s r e).1 = closed s.
Proof.
  intros Hl Hc. unfold post, resolve, createToolkit. rewrite Hl, Hc.
  by destruct (truthy_string (RECALL_PRIVATE_KEY e)).
Qed.

Lemma post_connect_failure_registers_nothing_witness :
  let e := mkEnv 1000 Scenario.id1 (Some "0xkey") false Completes true in
  (post init (Scenario.json_post None) e).2 =
    mkResponse [] (Replied 500 (jsonrpc_error (-32603) "Internal server error")) ∧
  transports (post init (Scenario.json_post None) e).1 = transports init ∧
  onclose (post init (Scenario.json_post None) e).1 = onclose init ∧
  closed (post init (Scenario.json_post None) e).1 = closed init.
Proof.
  apply post_connect_failure_registers_nothing; reflexivity.
Defined.

Lemma hand_over_cases e v :
  hand_over e v = internal_error ∨ hand_over e v = Aborted ∨
  ∃ t, hand_over e v = Handled t ∧ transport_of v = Some t ∧ handle e = Completes.
Proof.
  unfold hand_over, delegate, caught. destruct (transport_of v) as [t|]; [|by left].
  destruct (handle e) as [|[]]; [|by right; left| by left].
  right. right. by exists t.
Qed.

Lemma resolve_inr s r e s' hs v :
  resolve s r e = inr (s', hs, v) →
  (∃ k, mcp_session_id r = Some k ∧ get s k = v ∧ touch s k v (now e) = Some s' ∧
        hs = []) ∨
  (lookup_session s (mcp_session_id r) = None ∧
   truthy_string (RECALL_PRIVATE_KEY e) = true ∧ connect_ok e = true ∧
   hs = [("Mcp-Session-Id", uuid e)] ∧
   v = Session (mkSession (heap_next s) (S (heap_next s)) (now e)) ∧
   s' = set_onclose (heap_next s) (uuid e)
          (set_transports
             <[uuid e := mkSession (heap_next s) (S (heap_next s)) (now e)]>
             (alloc (alloc (log_uuid (uuid e) s))))).
Proof.
  unfold resolve.
  destruct (lookup_session s (mcp_session_id r)) as [[k v']|] eqn:E.
  - apply lookup_session_key in E as (Hh & Hg & _).
    destruct (touch s k v' (now e)) eqn:Et; [|done].
    intros [= <- <- <-]. left. by exists k.
  - unfold createToolkit.
    destruct (truthy_string (RECALL_PRIVATE_KEY e)); [|done].
    destruct (connect_ok e); [|done].
    intros [= <- <- <-]. by right.
Qed.


Lemma hand_over_not_415 e v body : hand_over e v ≠ Replied 415 body.
Proof.
  destruct (hand_over_cases e v) as [->|[->|(t & -> & _)]]; discriminate.
Qed.

(** X3.  Whenever a handler hands a request to a transport, that transport
    belongs to a session that is in the store when the handler is done, with
    lastActivity set to the time of the request: for POST the session the
    request named or the one whose ID the response announces, for GET the
    session the request named (a DELETE is never handed over). *)
Theorem handlers_delegate_to_registered_sessions s r e t :
  (outcome (post s r e).2 = Handled t →
     ∃ k d, transports (post s r e).1 !! k = Some d ∧
            transport d = t ∧ lastActivity d = now e ∧
            (mcp_session_id r = Some k ∨
             ("Mcp-Session-Id", k) ∈ headers (post s r e).2)) ∧
  (outcome (handleSessionRequest s r e).2 = Handled t →
     ∃ k d, mcp_session_id r = Some k ∧ method r ≠ DELETE ∧
            transports (handleSessionRequest s r e).1 !! k = Some d ∧
            transport d = t ∧ lastActivity d = now e).
Proof.
  split.
  - unfold post. destruct (resolve s r e) as [s'|[[s' hs] v]] eqn:Hres; [done|].
    destruct (negb _); [done|]. simpl. intros Hout.
    destruct (hand_over_cases e v) as [H|[H|(t' & H & Ht & _)]];
      rewrite H in Hout; try done. injection Hout as ->.
    destruct v as [d| | |]; try done. injection Ht as Ht.
    apply resolve_inr in Hres
      as [(k & Hh & Hg & Htouch & ->)|(_ & _ & _ & -> & [= ->] & ->)].
    + injection Htouch as <-. exists k, (mkSession (transport d) (toolkit d) (now e)).
      simpl. rewrite lookup_insert_eq. by auto.
    + exists (uuid e), (mkSession (heap_next s) (S (heap_next s)) (now e)).
      simpl. rewrite lookup_insert_eq. split; [done|]. split; [done|].
      split; [done|]. right.
      destruct (includes (or_empty (accept r)) "text/event-stream");
        unfold sse_headers; rewrite !elem_of_setHeader;
        auto 6 using list_elem_of_here.
  - unfold handleSessionRequest.
    destruct (lookup_session s (mcp_session_id r)) as [[k v]|] eqn:E; [|done].
    apply lookup_session_key in E as (Hh & Hg & _).
    destruct (touch s k v (now e)) as [s1|] eqn:Htouch; [|done].
    assert (hand_over e v = Handled t →
            ∃ d, transports s1 !! k = Some d ∧ transport d = t ∧
                 lastActivity d = now e) as Hgo.
    { intros Hout.
      destruct (hand_over_cases e v) as [H|[H|(t' & H & Ht & _)]];
        rewrite H in Hout; try done. injection Hout as ->.
      destruct v as [d| | |]; try done. injection Ht as Ht.
      injection Htouch as <-. eexists. simpl. by rewrite lookup_insert_eq. }
    destruct (method r) eqn:Hm; simpl.
    + destruct (negb _); [done|]. simpl. intros (d & ? & ? & ?)%Hgo.
      by exists k, d.
    + intros (d & ? & ? & ?)%Hgo. by exists k, d.
    + by destruct (transport_of v).
    + intros (d & ? & ? & ?)%Hgo. by exists k, d.
Qed.

Lemma handlers_delegate_to_registered_sessions_witness :
  let s := (post init (Scenario.json_post None) (Scenario.env 1000 Scenario.id1)).1 in
  let r := Scenario.json_post (Some Scenario.id1) in
  let e := Scenario.env 2000 Scenario.id2 in
  ∃ k d, transports (post s r e).1 !! k = Some d ∧
         transport d = 0%nat ∧ lastActivity d = now e ∧
         (mcp_session_id r = Some k ∨
          ("Mcp-Session-Id", k) ∈ headers (post s r e).2).
Proof.
  intros s r e.
  apply (proj1 (handlers_delegate_to_registered_sessions s r e 0%nat)).
  reflexivity.
Defined.

(** Splits a case table and closes each line. *)
Ltac by_cases := repeat split; intros; try discriminate; eauto 10.

(** X4.  The POST handler answers with the 415 error, the 500 error, a
    response written by the transport, or nothing more (a failure after the
    headers went out); never with 400, 406 or an acknowledgment of its own.
    The 415 means the Content-Type lacks "application/json".  The 500 has
    one of three causes: provisioning failed on the new-session branch,
    [handleRequest] threw before the headers were sent, or the session ID
    named something that is no session record. *)
Theorem post_reply_taxonomy s r e :
  let out := outcome (post s r e).2 in
  (out = Replied 415 (jsonrpc_error (-32000) "Content-Type must be application/json") ∨
   out = Replied 500 (jsonrpc_error (-32603) "Internal server error") ∨
   out = Aborted ∨ ∃ t, out = Handled t) ∧
  (out = Replied 415 (jsonrpc_error (-32000) "Content-Type must be application/json") →
     includes (or_empty (content_type r)) "application/json" = false) ∧
  (out = Replied 500 (jsonrpc_error (-32603) "Internal server error") →
     (lookup_session s (mcp_session_id r) = None ∧
      (truthy_string (RECALL_PRIVATE_KEY e) = false ∨ connect_ok e = false)) ∨
     handle e = Throws false ∨
     (∃ k v, lookup_session s (mcp_session_id r) = Some (k, v) ∧
             transport_of v = None)) ∧
  (out = Aborted → handle e = Throws true).
Proof.
  unfold post, resolve, createToolkit.
  destruct (lookup_session s (mcp_session_id r)) as [[k v]|] eqn:E.
  - destruct (touch s k v (now e)) as [s'|] eqn:Ht.
    + destruct (includes (or_empty (content_type r)) "application/json");
        simpl; [|by_cases].
      unfold hand_over, delegate, caught.
      destruct (transport_of v) as [t|] eqn:Hv; [|by_cases].
      destruct (handle e) as [|[]]; by_cases.
    + assert (transport_of v = None) by by destruct v. simpl. by_cases.
  - destruct (truthy_string (RECALL_PRIVATE_KEY e)); [|simpl; by_cases].
    destruct (connect_ok e); [|simpl; by_cases].
    destruct (includes (or_empty (content_type r)) "application/json");
      simpl; [|by_cases].
    unfold hand_over, delegate, caught. simpl.
    destruct (handle e) as [|[]]; by_cases.
Qed.

Lemma post_reply_taxonomy_witness :
  let r := Scenario.json_post None in
  let e := Scenario.env_no_key 1000 Scenario.id1 in
  (lookup_session init (mcp_session_id r) = None ∧
   (truthy_string (RECALL_PRIVATE_KEY e) = false ∨ connect_ok e = false)) ∨
  handle e = Throws false ∨
  (∃ k v, lookup_session init (mcp_session_id r) = Some (k, v) ∧
          transport_of v = None).
Proof.
  intros r e.
  destruct (post_reply_taxonomy init r e) as (_ & _ & H500 & _).
  apply H500. reflexivity.
Defined.

(** X5.  [handleSessionRequest] answers with the 400 error, the 406
    error, the termination acknowledgment, the 500 error, a response
    written by the transport, or nothing more; never with 415.  It answers
    400 exactly when its lookup of the session ID finds nothing, and then
    the state is untouched; 406 only to a GET whose Accept lacks
    "text/event-stream"; the acknowledgment only to a DELETE; 500 only when
    [handleRequest] threw before the headers were sent or the ID named
    something that is no session record. *)
Theorem session_request_reply_taxonomy s r e :
  let out := outcome (handleSessionRequest s r e).2 in
  (out = Replied 400 (jsonrpc_error (-32000) "Invalid or missing session ID") ∨
   out = Replied 406
           (jsonrpc_error (-32000) "Accept header must include text/event-stream") ∨
   out = Replied 200 (JObj [("status", JStr "ok"); ("message", JStr "Session terminated")]) ∨
   out = Replied 500 (jsonrpc_error (-32603) "Internal server error") ∨
   out = Aborted ∨ ∃ t, out = Handled t) ∧
  (out = Replied 400 (jsonrpc_error (-32000) "Invalid or missing session ID") ↔
     lookup_session s (mcp_session_id r) = None) ∧
  (out = Replied 400 (jsonrpc_error (-32000) "Invalid or missing session ID") →
     (handleSessionRequest s r e).1 = s) ∧
  (out = Replied 406
           (jsonrpc_error (-32000) "Accept header must include text/event-stream") →
     method r = GET ∧ includes (or_empty (accept r)) "text/event-stream" = false) ∧
  (out = Replied 200 (JObj [("status", JStr "ok"); ("message", JStr "Session terminated")]) →
     method r = DELETE) ∧
  (out = Replied 500 (jsonrpc_error (-32603) "Internal server error") →
     handle e = Throws false ∨
     (∃ k v, lookup_session s (mcp_session_id r) = Some (k, v) ∧
             transport_of v = None)).
Proof.
  unfold handleSessionRequest.
  destruct (lookup_session s (mcp_session_id r)) as [[k v]|] eqn:E;
    [|simpl; by_cases].
  destruct (touch s k v (now e)) as [s1|] eqn:Ht.
  - unfold hand_over, delegate, caught.
    destruct (transport_of v) as [t|] eqn:Hv;
      destruct (method r);
      try destruct (includes (or_empty (accept r)) "text/event-stream");
      try destruct (handle e) as [|[]]; simpl; by_cases.
  - assert (transport_of v = None) by by destruct v. simpl. by_cases.
Qed.

Lemma session_request_reply_taxonomy_witness :
  let s := (post init (Scenario.json_post None) (Scenario.env 1000 Scenario.id1)).1 in
  let r := Scenario.get_request (Some Scenario.id1) (Some "*/*") in
  method r = GET ∧ includes (or_empty (accept r)) "text/event-stream" = false.
Proof.
  intros s r.
  destruct (session_request_reply_taxonomy s r (Scenario.env 2000 Scenario.id2))
    as (_ & _ & _ & H406 & _).
  apply H406. reflexivity.
Defined.

(** X2.  Once session resolution has completed, the POST handler answers
    415 exactly when the Content-Type value does not contain
    "application/json" as a contiguous substring: parameters after the
    media type are accepted, and so is any longer value that contains it;
    an absent header is rejected. *)
Theorem content_type_gate_is_substring_test s r e s' hs v :
  resolve s r e = inr (s', hs, v) →
  outcome (post s r e).2 =
    Replied 415 (jsonrpc_error (-32000) "Content-Type must be application/json") ↔
  ¬ ∃ before after,
      or_empty (content_type r) = before +:+ "application/json" +:+ after.
Proof.
  intros Hres. rewrite <- JsMoreFacts.includes_spec. unfold post. rewrite Hres.
  destruct (includes (or_empty (content_type r)) "application/json"); simpl.
  - split; [|done]. intros H. by apply hand_over_not_415 in H.
  - split; [by intros _ ?|done].
Qed.

Lemma content_type_gate_is_substring_test_witness :
  let s := (post init (Scenario.json_post None) (Scenario.env 1000 Scenario.id1)).1 in
  let e := Scenario.env 2000 Scenario.id2 in
  outcome (post s (Scenario.text_post (Some Scenario.id1)) e).2 =
    Replied 415 (jsonrpc_error (-32000) "Content-Type must be application/json").
Proof.
  intros s e.
  apply (proj2 (content_type_gate_is_substring_test s
                  (Scenario.text_post (Some Scenario.id1)) e
                  (set_transports <[Scenario.id1 := mkSession 0 1 2000]> s)
                  [] (Session (mkSession 0 1 1000)) eq_refl)).
  intros H. apply JsMoreFacts.includes_spec in H. discriminate H.
Defined.

Lemma touch_other s k v t s' k' :
  get s k = v → touch s k v t = Some s' → k ≠ k' →
  transports s' !! k' = transports s !! k'.
Proof.
  intros Hv Ht Hne. destruct v as [d|name| |]; simpl in Ht; try done.
  - injection Ht as <-. simpl. by rewrite lookup_insert_ne.
  - injection Ht as <-. by case_bool_decide.
Qed.

Lemma touch_onclose s k v t s' : touch s k v t = Some s' → onclose s' = onclose s.
Proof.
  destruct v; simpl; try done; intros [= <-]; [done|]. by case_bool_decide.
Qed.

Lemma touch_session s k d t s' :
  touch s k (Session d) t = Some s' →
  transports s' !! k = Some (mkSession (transport d) (toolkit d) t).
Proof. intros [= <-]. simpl. apply lookup_insert_eq. Qed.

(** The termination branch on a registered session. *)
Lemma terminate_transports e s k d :
  onclose s !! transport d = Some k →
  transports (set_transports (delete k) (close e (transport d) s)) =
    delete k (transports s).
Proof. intros Ho. simpl. by apply close_transports. Qed.

(** X6.  A request touches no session but the one it names: after a POST,
    GET or DELETE, every other key of the store holds what it held before
    (for a POST, except the key of the session it creates). *)
Theorem requests_leave_other_sessions_alone s r e k' :
  reachable s →
  mcp_session_id r ≠ Some k' →
  (uuid e ≠ k' → transports (post s r e).1 !! k' = transports s !! k') ∧
  transports (handleSessionRequest s r e).1 !! k' = transports s !! k'.
Proof.
  intros Hr Hne. pose proof (reachable_Inv _ Hr) as HI. split.
  - intros Hu. unfold post.
    destruct (resolve s r e) as [s'|[[s' hs] v]] eqn:Hres.
    + unfold resolve, createToolkit in Hres.
      destruct (lookup_session s (mcp_session_id r)) as [[k v]|].
      * destruct (touch s k v (now e)); [done|]. by injection Hres as <-.
      * destruct (truthy_string _); [|by injection Hres as <-].
        destruct (connect_ok e); [done|]. by injection Hres as <-.
    + assert (transports s' !! k' = transports s !! k') as Hs'.
      { apply resolve_inr in Hres
          as [(k & Hh & Hg & Htouch & _)|(_ & _ & _ & _ & _ & ->)].
        - eapply touch_other; [done..|]. congruence.
        - simpl. by rewrite lookup_insert_ne. }
      by destruct (negb _).
  - unfold handleSessionRequest.
    destruct (lookup_session s (mcp_session_id r)) as [[k v]|] eqn:E; [|done].
    apply lookup_session_key in E as (Hh & Hg & _).
    assert (k ≠ k') as Hk by congruence.
    destruct (touch s k v (now e)) as [s1|] eqn:Ht; [|done].
    pose proof (touch_other _ _ _ _ _ _ Hg Ht Hk) as H1.
    destruct (method r); try done.
    + by destruct (negb _).
    + destruct v as [d| | |]; try done. unfold transport_of.
      apply get_Session_inv in Hg.
      change ((?a, ?b).1) with a.
      rewrite terminate_transports.
      * by rewrite lookup_delete_ne.
      * rewrite (touch_onclose _ _ _ _ _ Ht). by eapply inv_hook.
Qed.

Lemma requests_leave_other_sessions_alone_witness :
  let s := run init [Post (Scenario.json_post None) (Scenario.env 1000 Scenario.id1);
                     Post (Scenario.json_post None) (Scenario.env 1100 Scenario.id2)] in
  let r := Scenario.delete_request (Some Scenario.id1) in
  transports (handleSessionRequest s r (Scenario.env 2000 Scenario.id3)).1
    !! Scenario.id2 = Some (mkSession 2 3 1100).
Proof.
  intros s r.
  assert (reachable s) as Hr
    by by_run [Post (Scenario.json_post None) (Scenario.env 1000 Scenario.id1);
               Post (Scenario.json_post None) (Scenario.env 1100 Scenario.id2)].
  rewrite (proj2 (requests_leave_other_sessions_alone s r
                    (Scenario.env 2000 Scenario.id3) Scenario.id2 Hr
                    ltac:(discriminate))).
  reflexivity.
Defined.

(** X7.  As long as a session stays in the store it keeps its transport and
    its toolkit, and its lastActivity changes only by a POST, GET or DELETE
    that names it, to the time of that request ([randomUUID] being
    fresh). *)
Theorem live_session_keeps_its_pair s ev k d d' :
  reachable s → fresh s [ev] →
  transports s !! k = Some d →
  transports (step s ev) !! k = Some d' →
  transport d' = transport d ∧ toolkit d' = toolkit d ∧
  (lastActivity d' = lastActivity d ∨
   ∃ r e, (ev = Post r e ∨ ev = SessionRequest r e) ∧
          mcp_session_id r = Some k ∧ lastActivity d' = now e).
Proof.
  intros Hr [Hfresh _] Hd Hd'. pose proof (reachable_Inv _ Hr) as HI.
  assert (∀ s', shrinks s s' → transports s' !! k = Some d' → d' = d) as Hshr.
  { intros s' Hs H'. eapply lookup_weaken in H'; [|apply Hs]. congruence. }
  assert (∀ r e s1 k0 v, get s k0 = v → touch s k0 v (now e) = Some s1 →
            mcp_session_id r = Some k0 →
            ∀ d1, transports s1 !! k = Some d1 →
            transport d1 = transport d ∧ toolkit d1 = toolkit d ∧
            (lastActivity d1 = lastActivity d ∨
             mcp_session_id r = Some k ∧ lastActivity d1 = now e)) as Htouch.
  { intros r e s1 k0 v Hg Ht Hh d1 H1.
    destruct (decide (k0 = k)) as [->|Hne].
    - rewrite (get_session _ _ _ Hd) in Hg. subst v.
      rewrite (touch_session _ _ _ _ _ Ht) in H1. injection H1 as <-. by auto.
    - rewrite (touch_other _ _ _ _ _ _ Hg Ht Hne) in H1.
      assert (d1 = d) as -> by congruence. by auto. }
  destruct ev as [r e|r e|e|t]; simpl in *.
  - destruct Hfresh as [_ Hfresh]. unfold post in Hd'.
    destruct (resolve s r e) as [s'|[[s' hs] v]] eqn:Hres.
    + assert (d' = d) as ->; [|by auto]. revert Hres Hd'.
      unfold resolve, createToolkit.
      destruct (lookup_session s (mcp_session_id r)) as [[k0 v]|].
      * destruct (touch s k0 v (now e)); [done|]. intros [= <-]. simpl. congruence.
      * destruct (truthy_string _); [|intros [= <-]; simpl; congruence].
        destruct (connect_ok e); [done|]. intros [= <-]. simpl. congruence.
    + assert (transports s' !! k = Some d') as H' by by destruct (negb _).
      apply resolve_inr in Hres
        as [(k0 & Hh & Hg & Ht & _)|(Hl & _ & _ & _ & _ & ->)].
      * destruct (Htouch r e s' k0 v Hg Ht Hh d' H') as (? & ? & [?|[? ?]]);
          [by auto|]. split; [done|]. split; [done|]. right. exists r, e. by auto.
      * simpl in H'. rewrite lookup_insert_ne in H'.
        -- assert (d' = d) as -> by congruence. by auto.
        -- intros <-. apply (Hfresh Hl). by eapply inv_issued.
  - unfold handleSessionRequest in Hd'.
    destruct (lookup_session s (mcp_session_id r)) as [[k0 v]|] eqn:E.
    2:{ simpl in Hd'. assert (d' = d) as -> by congruence. by auto. }
    apply lookup_session_key in E as (Hh & Hg & _).
    destruct (touch s k0 v (now e)) as [s1|] eqn:Ht.
    2:{ simpl in Hd'. assert (d' = d) as -> by congruence. by auto. }
    assert (∀ d1, transports s1 !! k = Some d1 →
              transport d1 = transport d ∧ toolkit d1 = toolkit d ∧
              (lastActivity d1 = lastActivity d ∨
               ∃ r0 e0, (SessionRequest r e = Post r0 e0 ∨
                         SessionRequest r e = SessionRequest r0 e0) ∧
                        mcp_session_id r0 = Some k ∧ lastActivity d1 = now e0))
      as Hs1.
    { intros d1 H1.
      destruct (Htouch r e s1 k0 v Hg Ht Hh d1 H1) as (? & ? & [?|[? ?]]);
        [by auto|]. split; [done|]. split; [done|]. right. exists r, e. by auto. }
    destruct (method r).
    + destruct (negb _); exact (Hs1 _ Hd').
    + exact (Hs1 _ Hd').
    + destruct (transport_of v); [|exact (Hs1 _ Hd')].
      apply Hs1. eapply lookup_weaken; [exact Hd'|].
      apply (shrinks_transports s1).
      eapply shrinks_trans; [apply shrinks_close | apply shrinks_delete].
    + exact (Hs1 _ Hd').
  - assert (d' = d) as -> by (eapply Hshr; [apply shrinks_sweep | done]). by auto.
  - assert (d' = d) as ->
      by (eapply Hshr; [apply shrinks_fire_onclose | done]). by auto.
Qed.

Lemma live_session_keeps_its_pair_witness :
  let s := (post init (Scenario.json_post None) (Scenario.env 1000 Scenario.id1)).1 in
  let ev := Post (Scenario.text_post (Some Scenario.id1)) (Scenario.env 2000 Scenario.id2) in
  transport (mkSession 0 1 2000) = transport (mkSession 0 1 1000) ∧
  toolkit (mkSession 0 1 2000) = toolkit (mkSession 0 1 1000) ∧
  (lastActivity (mkSession 0 1 2000) = lastActivity (mkSession 0 1 1000) ∨
   ∃ r e, (ev = Post r e ∨ ev = SessionRequest r e) ∧
          mcp_session_id r = Some Scenario.id1 ∧
          lastActivity (mkSession 0 1 2000) = now e).
Proof.
  intros s ev.
  assert (reachable s) as Hr by one_session.
  apply (live_session_keeps_its_pair s ev Scenario.id1
           (mkSession 0 1 1000) (mkSession 0 1 2000) Hr).
  - repeat split. intros H. discriminate H.
  - reflexivity.
  - reflexivity.
Defined.

(** *** The cleanup job as a filter *)

Lemma sweep_filter s e :
  Inv s →
  transports (sweep s e) = filter (λ kd, expired e kd.2 = false) (transports s).
Proof.
  intros HI. destruct (sweep_spec s e HI) as (Hlive & Hgone & _).
  apply map_eq. intros k.
  destruct (transports s !! k) as [d|] eqn:Hd.
  - destruct (expired e d) eqn:Hexp.
    + rewrite (Hgone _ _ Hd Hexp). symmetry. apply map_lookup_filter_None.
      right. intros d' Hd'. simpl. congruence.
    + rewrite (Hlive _ _ Hd Hexp). symmetry. by apply map_lookup_filter_Some.
  - rewrite (shrinks_absent _ _ _ (shrinks_sweep s e) Hd). symmetry.
    apply map_lookup_filter_None. by left.
Qed.

(** X8.  A tick of the cleanup job leaves in the store exactly the sessions
    whose lastActivity lies at most 30 minutes back, each with its record
    unchanged; it adds nothing, and it installs or removes no onclose
    closure. *)
Theorem sweep_keeps_exactly_the_recent_sessions s e :
  reachable s →
  transports (sweep s e) =
    filter (λ kd, now e - lastActivity kd.2 ≤ 30 * 60 * 1000) (transports s) ∧
  onclose (sweep s e) = onclose s ∧
  issued (sweep s e) = issued s.
Proof.
  intros Hr. pose proof (reachable_Inv _ Hr) as HI.
  split; [|split; [apply shrinks_onclose | apply shrinks_issued]; apply shrinks_sweep].
  rewrite (sweep_filter s e HI). apply map_filter_ext. intros k d _. simpl.
  unfold expired, sessionTimeout. rewrite Z.gtb_ltb, Z.ltb_ge. lia.
Qed.

Lemma sweep_keeps_exactly_the_recent_sessions_witness :
  let s := (post init (Scenario.json_post None) (Scenario.env 1000 Scenario.id1)).1 in
  let e := Scenario.env 1801001 Scenario.id2 in
  transports (sweep s e) =
    filter (λ kd, now e - lastActivity kd.2 ≤ 30 * 60 * 1000) (transports s).
Proof.
  intros s e.
  assert (reachable s) as Hr by one_session.
  exact (proj1 (sweep_keeps_exactly_the_recent_sessions s e Hr)).
Defined.

(** X9.  A second tick at the same instant changes nothing: it removes no
    session and closes no transport that the first did not. *)
Theorem sweep_twice_is_sweep_once s e :
  reachable s →
  transports (sweep (sweep s e) e) = transports (sweep s e) ∧
  (∀ t, t ∈ closed (sweep (sweep s e) e) ↔ t ∈ closed (sweep s e)).
Proof.
  intros Hr. pose proof (reachable_Inv _ Hr) as HI.
  assert (Inv (sweep s e)) as HI' by (eapply Inv_shrinks; [done | apply shrinks_sweep]).
  assert (∀ k d, transports (sweep s e) !! k = Some d → expired e d = false) as Hrec.
  { intros k d. rewrite (sweep_filter s e HI).
    by intros [_ ?]%map_lookup_filter_Some. }
  split.
  - rewrite (sweep_filter _ e HI'). apply map_eq. intros k.
    destruct (transports (sweep s e) !! k) as [d|] eqn:Hd.
    + apply map_lookup_filter_Some. split; [done|]. simpl. by eapply Hrec.
    + apply map_lookup_filter_None. by left.
  - intros t. destruct (sweep_spec (sweep s e) e HI') as (_ & _ & Hc).
    rewrite Hc. split; [|by left].
    intros [?|(k & d & Hd & Hexp & _)]; [done|].
    rewrite (Hrec _ _ Hd) in Hexp. done.
Qed.

Lemma sweep_twice_is_sweep_once_witness :
  let s := (post init (Scenario.json_post None) (Scenario.env 1000 Scenario.id1)).1 in
  let e := Scenario.env 1801001 Scenario.id2 in
  transports (sweep (sweep s e) e) = transports (sweep s e).
Proof.
  intros s e.
  assert (reachable s) as Hr by one_session.
  exact (proj1 (sweep_twice_is_sweep_once s e Hr)).
Defined.

(** *** Closed transports and the store *)

Import Ownership.

Lemma tidy_init : tidy init.
Proof. split; simpl; [by intros t ?%elem_of_nil | intros *; by rewrite lookup_empty]. Qed.

Lemma Inv_transport_allocated s k d :
  Inv s → transports s !! k = Some d → (transport d < heap_next s)%nat.
Proof. intros HI Hd. eapply inv_heap, inv_hook; eauto. Qed.

Lemma Inv_transport_inj s k1 k2 d1 d2 :
  Inv s → transports s !! k1 = Some d1 → transports s !! k2 = Some d2 →
  transport d1 = transport d2 → k1 = k2.
Proof.
  intros HI H1 H2 Heq. pose proof (inv_hook _ HI _ _ H1) as Ho1.
  pose proof (inv_hook _ HI _ _ H2) as Ho2. congruence.
Qed.

Lemma tidy_shrinks s s' :
  tidy s → shrinks s s' → closed s' = closed s → tidy s'.
Proof.
  intros [Hc Hl] Hs Heq. split.
  - intros t. rewrite Heq, (shrinks_heap _ _ Hs). apply Hc.
  - intros k d Hd. rewrite Heq. eapply Hl, lookup_weaken; [done | apply Hs].
Qed.

Lemma tidy_touch s k v t s' :
  tidy s → get s k = v → touch s k v t = Some s' → tidy s'.
Proof.
  intros [Hc Hl] Hg Ht. destruct v as [d|name| |]; simpl in Ht; try done.
  - injection Ht as <-. apply get_Session_inv in Hg. split; simpl; [done|].
    intros k' d'. rewrite lookup_insert. case_decide; [|apply Hl].
    intros [= <-]. simpl. by eapply Hl.
  - injection Ht as <-. case_bool_decide; by split.
Qed.

Lemma tidy_grow s u n : tidy s → tidy (Nat.iter n alloc (log_uuid u s)).
Proof.
  intros [Hc Hl]. induction n as [|n IH]; simpl; [by split|].
  destruct IH as [Hc' Hl']. split; simpl; [|done].
  intros t Ht. apply Hc' in Ht. lia.
Qed.

Lemma tidy_register s e tk :
  tidy s →
  tidy (set_onclose (heap_next s) (uuid e)
          (set_transports <[uuid e := mkSession (heap_next s) tk (now e)]>
             (alloc (alloc (log_uuid (uuid e) s))))).
Proof.
  intros [Hc Hl]. split; simpl.
  - intros t Ht. apply Hc in Ht. lia.
  - intros k d. rewrite lookup_insert. case_decide; [|apply Hl].
    intros [= <-]. simpl. intros Hin. apply Hc in Hin. lia.
Qed.

(** Closing the transport of a registered session and deleting its key. *)
Lemma tidy_terminate e s k d :
  Inv s → tidy s → transports s !! k = Some d →
  tidy (set_transports (delete k) (close e (transport d) s)).
Proof.
  intros HI [Hc Hl] Hd. pose proof (inv_hook _ HI _ _ Hd) as Ho. split.
  - intros t. simpl. rewrite close_closed.
    assert (heap_next (close e (transport d) s) = heap_next s) as ->
      by apply shrinks_heap, shrinks_close.
    intros [->|Ht]%elem_of_cons; [by eapply Inv_transport_allocated | by apply Hc].
  - intros k' d'. rewrite (terminate_transports e s k d Ho).
    intros [Hne Hd']%lookup_delete_Some. simpl. rewrite close_closed.
    intros [Heq|Hin]%elem_of_cons; [|by eapply Hl].
    apply Hne. by eapply Inv_transport_inj.
Qed.

Lemma tidy_sweep s e : Inv s → tidy s → tidy (sweep s e).
Proof.
  intros HI [Hc Hl]. destruct (sweep_spec s e HI) as (Hlive & Hgone & Hclosed).
  split.
  - intros t. rewrite (shrinks_heap _ _ (shrinks_sweep s e)).
    intros [Ht|(k & d & Hd & _ & <-)]%Hclosed;
      [by apply Hc | by eapply Inv_transport_allocated].
  - intros k d Hd.
    assert (transports s !! k = Some d) as Hd0
      by (eapply lookup_weaken; [done | apply shrinks_transports, shrinks_sweep]).
    intros [Hin|(k' & d' & Hd' & Hexp & Heq)]%Hclosed; [by eapply Hl|].
    assert (k' = k) as -> by by eapply Inv_transport_inj.
    rewrite (Hgone _ _ Hd' Hexp) in Hd. done.
Qed.

Lemma tidy_step s ev : Inv s → tidy s → wf_event ev → tidy (step s ev).
Proof.
  intros HI HT Hwf. destruct ev as [r e|r e|e|t]; simpl.
  - unfold post, resolve, createToolkit.
    destruct (lookup_session s (mcp_session_id r)) as [[k v]|] eqn:E.
    + apply lookup_session_key in E as (_ & Hg & _).
      destruct (touch s k v (now e)) as [s'|] eqn:Ht; [|done].
      pose proof (tidy_touch _ _ _ _ _ HT Hg Ht). by destruct (negb _).
    + destruct (truthy_string _); [|exact (tidy_grow s (uuid e) 1 HT)].
      destruct (connect_ok e); [|exact (tidy_grow s (uuid e) 2 HT)].
      pose proof (tidy_register s e (S (heap_next s)) HT). by destruct (negb _).
  - unfold handleSessionRequest.
    destruct (lookup_session s (mcp_session_id r)) as [[k v]|] eqn:E; [|done].
    apply lookup_session_key in E as (_ & Hg & _).
    destruct (touch s k v (now e)) as [s1|] eqn:Ht; [|done].
    pose proof (tidy_touch _ _ _ _ _ HT Hg Ht) as HT1.
    pose proof (Inv_touch _ _ _ _ _ HI Hg Ht) as HI1.
    destruct (method r); try done.
    + by destruct (negb _).
    + destruct v as [d| | |]; try done.
      pose proof (touch_session _ _ _ _ _ Ht) as Hd1.
      exact (tidy_terminate e s1 k _ HI1 HT1 Hd1).
  - by apply tidy_sweep.
  - apply (tidy_shrinks s); [done | apply shrinks_fire_onclose|].
    unfold fire_onclose. by destruct (onclose s !! t).
Qed.

(** X10.  The store never holds a transport on which the server has called
    [close()]: the termination branch and the cleanup job remove what they
    close, whether or not [close()] runs the onclose closure. *)
Theorem store_never_holds_a_closed_transport s k d :
  reachable s → transports s !! k = Some d → transport d ∉ closed s.
Proof.
  intros (evs & Hwf & ->). revert k d.
  enough (Inv (run init evs) ∧ tidy (run init evs)) as [_ HT] by apply HT.
  generalize Inv_init tidy_init. generalize init.
  induction Hwf as [|ev evs Hev _ IH]; intros s HI HT; simpl; [done|].
  apply IH; [by apply Inv_step | by apply tidy_step].
Qed.

Lemma store_never_holds_a_closed_transport_witness :
  let s := run init [Post (Scenario.json_post None) (Scenario.env 1000 Scenario.id1);
                     Post (Scenario.json_post None) (Scenario.env 1100 Scenario.id2);
                     SessionRequest (Scenario.delete_request (Some Scenario.id1))
                                    (Scenario.env 1200 Scenario.id3)] in
  2%nat ∉ closed s.
Proof.
  intros s.
  assert (reachable s) as Hr
    by by_run [Post (Scenario.json_post None) (Scenario.env 1000 Scenario.id1);
               Post (Scenario.json_post None) (Scenario.env 1100 Scenario.id2);
               SessionRequest (Scenario.delete_request (Some Scenario.id1))
                              (Scenario.env 1200 Scenario.id3)].
  exact (store_never_holds_a_closed_transport s Scenario.id2 (mkSession 2 3 1100)
           Hr eq_refl).
Defined.

(** *** A session from creation to termination *)

(** X11.  A session from creation to termination: the ID announced in
    Mcp-Session-Id by the creating POST is the one under which a later POST
    reaches the transport created then, without a new ID being issued; and
    a DELETE with that ID answers 200, closes that transport once and
    leaves the store exactly as it was before the creation. *)
Theorem create_use_terminate_round_trip s r0 e0 r1 e1 r2 e2 :
  is_uuid (uuid e0) = true → transports s !! uuid e0 = None →
  lookup_session s (mcp_session_id r0) = None →
  truthy_string (RECALL_PRIVATE_KEY e0) = true → connect_ok e0 = true →
  mcp_session_id r1 = Some (uuid e0) →
  includes (or_empty (content_type r1)) "application/json" = true →
  mcp_session_id r2 = Some (uuid e0) → method r2 = DELETE →
  let s1 := (post s r0 e0).1 in
  let s2 := (post s1 r1 e1).1 in
  let s3 := (handleSessionRequest s2 r2 e2).1 in
  ("Mcp-Session-Id", uuid e0) ∈ headers (post s r0 e0).2 ∧
  outcome (post s1 r1 e1).2 = delegate e1 (heap_next s) ∧
  has_header "Mcp-Session-Id" (post s1 r1 e1).2 = false ∧
  transports s2 !! uuid e0 =
    Some (mkSession (heap_next s) (S (heap_next s)) (now e1)) ∧
  (handleSessionRequest s2 r2 e2).2 =
    mkResponse []
      (Replied 200 (JObj [("status", JStr "ok"); ("message", JStr "Session terminated")])) ∧
  transports s3 = transports s ∧
  closed s3 = heap_next s :: closed s.
Proof.
  intros Hu Hfresh Hl Hk Hc Hh1 Hct Hh2 Hm s1 s2 s3.
  set (d0 := mkSession (heap_next s) (S (heap_next s)) (now e0)).
  set (d1 := mkSession (heap_next s) (S (heap_next s)) (now e1)).
  set (d2 := mkSession (heap_next s) (S (heap_next s)) (now e2)).
  set (reg := set_onclose (heap_next s) (uuid e0)
                (set_transports <[uuid e0 := d0]>
                   (alloc (alloc (log_uuid (uuid e0) s))))).
  assert (s1 = reg) as Hs1.
  { subst s1. unfold post. rewrite (resolve_create _ _ _ Hl Hk Hc).
    by destruct (negb _). }
  assert (post s1 r1 e1 =
            (set_transports <[uuid e0 := d1]> reg,
             mkResponse
               (if includes (or_empty (accept r1)) "text/event-stream"
                then sse_headers []
                else setHeader "Content-Type" "application/json" [])
               (delegate e1 (heap_next s)))) as Hp1.
  { rewrite Hs1. unfold post, resolve. rewrite Hh1.
    rewrite (lookup_session_live reg (uuid e0) d0 Hu);
      [|subst reg; simpl; apply lookup_insert_eq].
    simpl. by rewrite Hct. }
  assert (handleSessionRequest s2 r2 e2 =
            (set_transports (delete (uuid e0))
               (close e2 (heap_next s)
                  (set_transports <[uuid e0 := d2]>
                     (set_transports <[uuid e0 := d1]> reg))),
             mkResponse [] terminated)) as Hp2.
  { subst s2. rewrite Hp1. unfold handleSessionRequest. rewrite Hh2.
    rewrite (lookup_session_live _ (uuid e0) d1 Hu);
      [|simpl; apply lookup_insert_eq].
    simpl. by rewrite Hm. }
  split.
  { unfold post. rewrite (resolve_create _ _ _ Hl Hk Hc).
    destruct (negb _); [|destruct (includes (or_empty (accept r0)) _)]; simpl;
      unfold sse_headers; rewrite ?elem_of_setHeader;
      auto 6 using list_elem_of_here. }
  split; [by rewrite Hp1|].
  split; [rewrite Hp1; by destruct (includes (or_empty (accept r1)) _)|].
  split; [subst s2; rewrite Hp1; simpl; apply lookup_insert_eq|].
  split; [by rewrite Hp2|].
  subst s3. rewrite Hp2. split.
  - change (delete (uuid e0)
              (transports
                 (close e2 (heap_next s)
                    (set_transports <[uuid e0 := d2]>
                       (set_transports <[uuid e0 := d1]> reg)))) =
            transports s).
    rewrite close_transports; [|simpl; apply lookup_insert_eq].
    simpl. rewrite !delete_insert_eq. by apply delete_id.
  - change (closed
              (close e2 (heap_next s)
                 (set_transports <[uuid e0 := d2]>
                    (set_transports <[uuid e0 := d1]> reg))) =
            heap_next s :: closed s).
    by rewrite close_closed.
Qed.

Lemma create_use_terminate_round_trip_witness :
  let e0 := Scenario.env 1000 Scenario.id1 in
  let e1 := Scenario.env 2000 Scenario.id2 in
  let e2 := Scenario.env 3000 Scenario.id3 in
  let s1 := (post init (Scenario.json_post None) e0).1 in
  let s2 := (post s1 (Scenario.json_post (Some Scenario.id1)) e1).1 in
  let s3 := (handleSessionRequest s2 (Scenario.delete_request (Some Scenario.id1)) e2).1 in
  outcome (post s1 (Scenario.json_post (Some Scenario.id1)) e1).2 = delegate e1 0 ∧
  transports s3 = transports init ∧
  closed s3 = [0%nat].
Proof.
  intros e0 e1 e2 s1 s2 s3.
  destruct (create_use_terminate_round_trip init
              (Scenario.json_post None) e0
              (Scenario.json_post (Some Scenario.id1)) e1
              (Scenario.delete_request (Some Scenario.id1)) e2
              eq_refl eq_refl eq_refl eq_refl eq_refl eq_refl eq_refl eq_refl
              eq_refl)
    as (_ & Hd & _ & _ & _ & Ht & Hc).
  split; [exact Hd|]. split; [exact Ht | exact Hc].
Defined.

(** *** A request that writes to [Object.prototype] *)

Lemma reachable_names_no_builtin s k :
  reachable s → is_uuid k = false → transports s !! k = None.
Proof.
  intros Hr Hk. destruct (transports s !! k) as [d|] eqn:Hd; [|done].
  rewrite (inv_keys _ (reachable_Inv _ Hr) _ _ Hd) in Hk. done.
Qed.

(** X12.  A DELETE whose session ID is "__proto__" is answered 500 and
    changes no session, but it leaves its time in
    [Object.prototype.lastActivity]; from then on that number is what
    [transports["lastActivity"]] finds, and every POST, GET or DELETE whose
    session ID is "lastActivity" is answered 500, the POST without creating
    a session. *)
Theorem proto_request_poisons_lastActivity_id s e r e' :
  reachable s → now e ≠ 0 →
  mcp_session_id r = Some "lastActivity" →
  let s1 := (handleSessionRequest s (Scenario.delete_request (Some "__proto__")) e).1 in
  (handleSessionRequest s (Scenario.delete_request (Some "__proto__")) e).2 =
    mkResponse [] (Replied 500 (jsonrpc_error (-32603) "Internal server error")) ∧
  transports s1 = transports s ∧
  prototype_lastActivity s1 = Some (now e) ∧
  post s1 r e' =
    (s1, mkResponse [] (Replied 500 (jsonrpc_error (-32603) "Internal server error"))) ∧
  handleSessionRequest s1 r e' =
    (s1, mkResponse [] (Replied 500 (jsonrpc_error (-32603) "Internal server error"))).
Proof.
  intros Hr Hnow Hh s1.
  assert (transports s !! "__proto__" = None) as Hp
    by by apply reachable_names_no_builtin.
  assert (transports s !! "lastActivity" = None) as Hl
    by by apply reachable_names_no_builtin.
  set (poisoned := set_prototype_lastActivity (now e) s).
  assert (handleSessionRequest s (Scenario.delete_request (Some "__proto__")) e =
            (poisoned, mkResponse [] internal_error)) as H1.
  { unfold handleSessionRequest.
    change (mcp_session_id (Scenario.delete_request (Some "__proto__")))
      with (Some "__proto__").
    by rewrite (lookup_session_inherited s "__proto__" eq_refl Hp). }
  assert (lookup_session poisoned (Some "lastActivity") =
            Some ("lastActivity", Num (now e))) as Hlook.
  { unfold lookup_session, get. simpl. rewrite Hl. simpl.
    apply Z.eqb_neq in Hnow. by rewrite Hnow. }
  assert (s1 = poisoned) as -> by (subst s1; by rewrite H1).
  rewrite H1. repeat (split; [done|]). split.
  - unfold post, resolve. by rewrite Hh, Hlook.
  - unfold handleSessionRequest. by rewrite Hh, Hlook.
Qed.

Lemma proto_request_poisons_lastActivity_id_witness :
  let e := Scenario.env 1000 Scenario.id1 in
  let s1 := (handleSessionRequest init (Scenario.delete_request (Some "__proto__")) e).1 in
  post s1 (Scenario.json_post (Some "lastActivity")) (Scenario.env 2000 Scenario.id2) =
    (s1, mkResponse [] (Replied 500 (jsonrpc_error (-32603) "Internal server error"))).
Proof.
  intros e s1.
  assert (reachable init) as Hr by by_run (@nil Event).
  destruct (proto_request_poisons_lastActivity_id init e
              (Scenario.json_post (Some "lastActivity"))
              (Scenario.env 2000 Scenario.id2) Hr ltac:(discriminate) eq_refl)
    as (_ & _ & _ & Hp & _).
  exact Hp.
Defined.
End ServerMoreFacts.

Module ThreeMapsMoreFacts.
Import Js Http ThreeMaps JsFacts ThreeMapsFacts KeySets.

Lemma sessions_lookup_cases s h k v :
  lookup_session s h = Some (k, v) →
  h = Some k ∧
  ((∃ t, v = Transport t ∧ sessions s !! k = Some t) ∨
   (v = Builtin k ∧ inherited k = true ∧ sessions s !! k = None)).
Proof.
  intros (Hh & <- & Ht)%sessions_lookup_key. split; [done|]. unfold get in *.
  destruct (sessions s !! k) as [t|]; [by eauto|].
  destruct (inherited k); [by auto | done].
Qed.

Lemma key_sets_init : key_sets init.
Proof.
  split; simpl; [by rewrite !dom_empty_L | by rewrite !dom_empty_L |].
  intros k. rewrite dom_empty_L. by intros ?%not_elem_of_empty.
Qed.

Lemma key_sets_forget k s : key_sets s → key_sets (forget k s).
Proof.
  intros [Ht Ha Hs]. split; simpl; rewrite ?dom_delete_L.
  - by rewrite Ht.
  - intros k' [Hin Hne]%elem_of_difference. apply elem_of_difference. auto.
  - intros k' [Hin Hne]%elem_of_difference Hnot. apply Hs; [done|].
    intros Hin'. apply Hnot. apply elem_of_difference. by split.
Qed.

Lemma key_sets_touch_session k t now s :
  sessions s !! k = Some t → key_sets s → key_sets (touch k now s).
Proof.
  intros Hk [Ht Ha Hs]. unfold touch. case_bool_decide; [by split|].
  apply elem_of_dom_2 in Hk. split; simpl; rewrite ?dom_insert_L; [done| |].
  - intros k' Hin. apply elem_of_union. auto.
  - intros k' [->%elem_of_singleton|Hin]%elem_of_union Hnot; [done | by apply Hs].
Qed.

Lemma key_sets_touch_inherited k now s :
  inherited k = true → key_sets s → key_sets (touch k now s).
Proof.
  intros Hk [Ht Ha Hs]. unfold touch. case_bool_decide; [by split|].
  split; simpl; rewrite ?dom_insert_L; [done| |].
  - intros k' Hin. apply elem_of_union. auto.
  - intros k' [->%elem_of_singleton|Hin]%elem_of_union Hnot; [done | by apply Hs].
Qed.

Lemma key_sets_fire_onclose t s : key_sets s → key_sets (fire_onclose t s).
Proof.
  intros H. unfold fire_onclose. destruct (onclose s !! t); [|done].
  by apply key_sets_forget.
Qed.

Lemma key_sets_close e t s : key_sets s → key_sets (close e t s).
Proof.
  intros H. unfold close. destruct (close_notifies e); [|by destruct H].
  apply key_sets_fire_onclose. by destruct H.
Qed.

Lemma key_sets_sweep_from e ids s : key_sets s → key_sets (sweep_from e s ids).
Proof.
  revert s. induction ids as [|id ids IH]; intros s H; simpl; [done|].
  unfold sweep_entry. destruct (expired e s id); [|by apply IH].
  destruct (sessions s !! id); [|done].
  by apply IH, key_sets_forget, key_sets_close.
Qed.

Lemma key_sets_step s ev : key_sets s → key_sets (step s ev).
Proof.
  intros H. destruct ev as [r e|r e|e|t]; simpl.
  - unfold post, resolve, createToolkit.
    destruct (lookup_session s (mcp_session_id r)) as [[k v]|] eqn:E.
    + assert (key_sets (touch k (now e) s)) as H'.
      { apply sessions_lookup_cases in E as (_ & [(t & -> & Hk)|(-> & Hk & _)]);
          [by eapply key_sets_touch_session | by apply key_sets_touch_inherited]. }
      by destruct (negb _).
    + destruct (truthy_string _); [|by destruct H].
      destruct (connect_ok e); [|by destruct H].
      assert (key_sets
                (set_onclose (heap_next s) (uuid e)
                   (set_lastActivity <[uuid e := now e]>
                      (set_toolkits <[uuid e := S (heap_next s)]>
                         (set_sessions <[uuid e := heap_next s]>
                            (alloc (alloc (log_uuid (uuid e) s)))))))) as H'.
      { destruct H as [Ht Ha Hs]. split; simpl; rewrite ?dom_insert_L.
        - by rewrite Ht.
        - intros k' [?|Hin]%elem_of_union; apply elem_of_union; auto.
        - intros k' [->%elem_of_singleton|Hin]%elem_of_union Hnot.
          + exfalso. apply Hnot, elem_of_union. left. by apply elem_of_singleton.
          + apply Hs; [done|]. intros Hin'. apply Hnot, elem_of_union. auto. }
      by destruct (negb _).
  - unfold handleSessionRequest.
    destruct (lookup_session s (mcp_session_id r)) as [[k v]|] eqn:E; [|done].
    assert (key_sets (touch k (now e) s)) as H'.
    { apply sessions_lookup_cases in E as (_ & [(t & -> & Hk)|(-> & Hk & _)]);
        [by eapply key_sets_touch_session | by apply key_sets_touch_inherited]. }
    destruct (method r); try done.
    + by destruct (negb _).
    + destruct v; try done. by apply key_sets_forget, key_sets_close.
  - by apply key_sets_sweep_from.
  - by apply key_sets_fire_onclose.
Qed.

(** X13.  Whatever requests, ticks and closures the three-object server
    has seen: [toolkits] has exactly the keys of [sessions], every key of
    [sessions] is a key of [lastActivity], and a key that [lastActivity]
    has beyond those of [sessions] is a property name of
    [Object.prototype]. *)
Theorem key_sets_differ_only_by_inherited_names evs :
  let s := run init evs in
  dom (toolkits s) = dom (sessions s) ∧
  dom (sessions s) ⊆ dom (lastActivity s) ∧
  ∀ k, k ∈ dom (lastActivity s) → k ∉ dom (sessions s) → inherited k = true.
Proof.
  enough (key_sets (run init evs)) as [] by done.
  generalize key_sets_init. generalize init.
  induction evs as [|ev evs IH]; intros s H; simpl; [done|].
  by apply IH, key_sets_step.
Qed.

Lemma key_sets_differ_only_by_inherited_names_witness :
  let evs := [Post (Scenario.json_post None) (Scenario.env 1000 Scenario.id1);
              SessionRequest (Scenario.delete_request (Some "constructor"))
                             (Scenario.env 2000 Scenario.id2)] in
  dom (toolkits (run init evs)) = dom (sessions (run init evs)) ∧
  inherited "constructor" = true.
Proof.
  intros evs.
  destruct (key_sets_differ_only_by_inherited_names evs) as (Ht & _ & Hs).
  split; [exact Ht|]. apply Hs.
  - apply elem_of_dom. exists 2000. reflexivity.
  - apply not_elem_of_dom. reflexivity.
Defined.


(** *** Entries of [lastActivity] that no removal path reaches *)

Lemma inherited_not_uuid k : inherited k = true → is_uuid k = false.
Proof.
  intros Hk. destruct (is_uuid k) eqn:Hu; [|done].
  rewrite (is_uuid_not_inherited _ Hu) in Hk. done.
Qed.

Lemma forget_onclose k s : onclose (forget k s) = onclose s.
Proof. done. Qed.

Lemma close_onclose e t s : onclose (close e t s) = onclose s.
Proof.
  unfold close, fire_onclose. destruct (close_notifies e); [|done].
  simpl. by destruct (onclose s !! t).
Qed.

Lemma touch_frame k now s :
  onclose (touch k now s) = onclose s ∧ sessions (touch k now s) = sessions s ∧
  toolkits (touch k now s) = toolkits s ∧ closed (touch k now s) = closed s ∧
  issued (touch k now s) = issued s ∧ heap_next (touch k now s) = heap_next s.
Proof. unfold touch. by case_bool_decide. Qed.

Lemma sweep_from_frame e ids s :
  onclose (sweep_from e s ids) = onclose s ∧
  issued (sweep_from e s ids) = issued s ∧
  heap_next (sweep_from e s ids) = heap_next s.
Proof.
  revert s. induction ids as [|id ids IH]; intros s; simpl; [done|].
  unfold sweep_entry. destruct (expired e s id); [|apply IH].
  destruct (sessions s !! id) as [t|]; [|done].
  destruct (IH (forget id (close e t s))) as (-> & -> & ->).
  rewrite forget_onclose, close_onclose. unfold close, fire_onclose.
  destruct (close_notifies e); simpl; [by destruct (onclose s !! t) | done].
Qed.

Lemma hooks_step s ev :
  hooks_hold_uuids s → wf_event ev → hooks_hold_uuids (step s ev).
Proof.
  intros H Hwf. unfold hooks_hold_uuids.
  destruct ev as [r e|r e|e|t]; simpl in *.
  - unfold post, resolve, createToolkit.
    destruct (lookup_session s (mcp_session_id r)) as [[k v]|].
    + destruct (touch_frame k (now e) s) as (Ho & _).
      destruct (negb _); simpl; by rewrite Ho.
    + destruct (truthy_string _); [|done].
      destruct (connect_ok e); [|done].
      assert (∀ t k, <[heap_next s := uuid e]> (onclose s) !! t = Some k →
                     is_uuid k = true) as H'.
      { intros t k. rewrite lookup_insert. case_decide; [congruence | apply H]. }
      by destruct (negb _).
  - unfold handleSessionRequest.
    destruct (lookup_session s (mcp_session_id r)) as [[k v]|]; [|done].
    destruct (touch_frame k (now e) s) as (Ho & _).
    destruct (method r); simpl; try (by rewrite Ho).
    + destruct (negb _); simpl; by rewrite Ho.
    + destruct v; simpl; try (by rewrite Ho).
      by rewrite close_onclose, Ho.
  - unfold sweep. destruct (sweep_from_frame e (map_to_list (sessions s)).*1 s)
      as (-> & _). done.
  - unfold fire_onclose. by destruct (onclose s !! t).
Qed.

(** An entry under a key that is no UUID survives the three [delete]s
    whenever they are run for a UUID. *)
Lemma forget_keeps k k' s :
  is_uuid k' = true → is_uuid k = false →
  is_Some (lastActivity s !! k) → is_Some (lastActivity (forget k' s) !! k).
Proof.
  intros Hu Hk H. simpl. rewrite lookup_delete_ne; [done | congruence].
Qed.

Lemma close_keeps e t k s :
  hooks_hold_uuids s → is_uuid k = false →
  is_Some (lastActivity s !! k) → is_Some (lastActivity (close e t s) !! k).
Proof.
  intros Hh Hk H. unfold close, fire_onclose.
  destruct (close_notifies e); [|done]. simpl.
  destruct (onclose s !! t) as [k'|] eqn:Ho; [|done].
  apply forget_keeps; [by eapply Hh | done | done].
Qed.

Lemma touch_keeps k' now k s :
  is_Some (lastActivity s !! k) → is_Some (lastActivity (touch k' now s) !! k).
Proof.
  intros H. unfold touch. case_bool_decide; [done|]. simpl.
  rewrite lookup_insert. by case_decide.
Qed.

Lemma sweep_from_keeps e ids k s :
  Inv s → hooks_hold_uuids s → is_uuid k = false →
  is_Some (lastActivity s !! k) →
  is_Some (lastActivity (sweep_from e s ids) !! k).
Proof.
  revert s. induction ids as [|id ids IH]; intros s HI Hh Hk H; simpl; [done|].
  unfold sweep_entry. destruct (expired e s id); [|by apply IH].
  destruct (sessions s !! id) as [t|] eqn:Hs; [|done].
  apply IH; [by apply Inv_three_forget, Inv_three_close | | done |].
  - unfold hooks_hold_uuids. rewrite forget_onclose, close_onclose. apply Hh.
  - apply forget_keeps; [by eapply inv_sessions | done |].
    by apply close_keeps.
Qed.

Lemma step_keeps s ev k :
  Inv s → hooks_hold_uuids s → is_uuid k = false →
  is_Some (lastActivity s !! k) → is_Some (lastActivity (step s ev) !! k).
Proof.
  intros HI Hh Hk H. destruct ev as [r e|r e|e|t]; simpl.
  - unfold post, resolve, createToolkit.
    destruct (lookup_session s (mcp_session_id r)) as [[k' v]|].
    + pose proof (touch_keeps k' (now e) k s H). by destruct (negb _).
    + destruct (truthy_string _); [|done].
      destruct (connect_ok e); [|done].
      assert (is_Some (<[uuid e := now e]> (lastActivity s) !! k)) as H'
        by (rewrite lookup_insert; by case_decide).
      by destruct (negb _).
  - unfold handleSessionRequest.
    destruct (lookup_session s (mcp_session_id r)) as [[k' v]|] eqn:E; [|done].
    pose proof (touch_keeps k' (now e) k s H) as H1.
    destruct (method r); try done.
    + by destruct (negb _).
    + apply sessions_lookup_cases in E as (_ & [(t & -> & Hs)|(-> & _ & _)]);
        [|done].
      destruct (touch_frame k' (now e) s) as (Ho & _).
      apply forget_keeps; [by eapply inv_sessions | done |].
      apply close_keeps; [|done..]. unfold hooks_hold_uuids. by rewrite Ho.
  - by apply sweep_from_keeps.
  - unfold fire_onclose. destruct (onclose s !! t) as [k'|] eqn:Ho; [|done].
    apply forget_keeps; [by eapply Hh | done | done].
Qed.

(** X14.  An entry of [lastActivity] under a property name of
    [Object.prototype] is never removed: no DELETE, no onclose closure and
    no tick of the cleanup job deletes it. *)
Theorem stray_activity_entry_is_never_removed evs evs' k :
  Forall wf_event evs → Forall wf_event evs' →
  inherited k = true →
  is_Some (lastActivity (run init evs) !! k) →
  is_Some (lastActivity (run (run init evs) evs') !! k).
Proof.
  intros Hwf Hwf' Hk%inherited_not_uuid.
  assert (Inv (run init evs) ∧ hooks_hold_uuids (run init evs)) as [HI Hh].
  { assert (hooks_hold_uuids init) as H0
      by (unfold hooks_hold_uuids; simpl; intros t k'; by rewrite lookup_empty).
    revert H0. generalize Inv_three_init. generalize init.
    induction Hwf as [|ev evs0 Hev _ IH]; intros s HI Hh; simpl; [done|].
    apply IH; [by apply Inv_three_step | by apply hooks_step]. }
  revert HI Hh. generalize (run init evs).
  induction Hwf' as [|ev evs0 Hev _ IH]; intros s HI Hh H; simpl; [done|].
  apply IH; [by apply Inv_three_step | by apply hooks_step | by apply step_keeps].
Qed.

Lemma stray_activity_entry_is_never_removed_witness :
  let evs := [SessionRequest (Scenario.delete_request (Some "constructor"))
                             (Scenario.env 1000 Scenario.id1)] in
  let evs' := [Tick (Scenario.env 9000000 Scenario.id2);
               SessionRequest (Scenario.delete_request (Some Scenario.id1))
                              (Scenario.env 9000001 Scenario.id2)] in
  is_Some (lastActivity (run (run init evs) evs') !! "constructor").
Proof.
  intros evs evs'.
  apply (stray_activity_entry_is_never_removed evs evs' "constructor").
  - repeat constructor.
  - repeat constructor.
  - reflexivity.
  - exists 1000. reflexivity.
Defined.

End ThreeMapsMoreFacts.

Module VariantsFacts.
Import Js Http JsFacts Variants.

Lemma plain_not_proto k : inherited k = false → k ≠ "__proto__".
Proof. by intros Hk ->. Qed.

Lemma matches_init : matches Server.init ThreeMaps.init.
Proof. split; simpl; try done; intros k; by rewrite !lookup_empty. Qed.

(** The two guards decide alike on a plain session ID. *)
Lemma matches_lookup s m h :
  matches s m → (∀ k, h = Some k → inherited k = false) →
  (Server.lookup_session s h = None ∧ ThreeMaps.lookup_session m h = None) ∨
  (∃ k d, h = Some k ∧ Server.transports s !! k = Some d ∧
          Server.lookup_session s h = Some (k, Server.Session d) ∧
          ThreeMaps.lookup_session m h =
            Some (k, ThreeMaps.Transport (Server.transport d))).
Proof.
  intros Hm Hp. destruct h as [k|]; [|by left].
  specialize (Hp k eq_refl).
  unfold Server.lookup_session, ThreeMaps.lookup_session, Server.get, ThreeMaps.get.
  rewrite (match_sessions _ _ Hm k), Hp, (match_prototype _ _ Hm).
  destruct (truthy_string (Some k)); [|by left].
  destruct (Server.transports s !! k) as [d|] eqn:Hd; simpl.
  - right. by exists k, d.
  - left. split; [|done]. by case_bool_decide.
Qed.

Lemma matches_touch s m k d now :
  matches s m → inherited k = false → Server.transports s !! k = Some d →
  matches
    (Server.set_transports
       <[k := Server.mkSession (Server.transport d) (Server.toolkit d) now]> s)
    (ThreeMaps.touch k now m).
Proof.
  intros [Hs Ht Hl Ho Hc Hi Hh Hp] Hk Hd. unfold ThreeMaps.touch.
  rewrite bool_decide_eq_false_2; [|by apply plain_not_proto].
  split; simpl; try done.
  - intros k'. rewrite Hs, lookup_insert. case_decide; [subst; by rewrite Hd | done].
  - intros k'. rewrite Ht, lookup_insert. case_decide; [subst; by rewrite Hd | done].
  - intros k'. rewrite !lookup_insert. case_decide; [done | apply Hl].
Qed.

Lemma matches_grow s m u n :
  matches s m →
  matches (Nat.iter n Server.alloc (Server.log_uuid u s))
          (Nat.iter n ThreeMaps.alloc (ThreeMaps.log_uuid u m)).
Proof.
  intros [Hs Ht Hl Ho Hc Hi Hh Hp]. induction n as [|n IH]; simpl.
  - split; simpl; try done. by rewrite Hi.
  - destruct IH as [Hs' Ht' Hl' Ho' Hc' Hi' Hh' Hp']. split; simpl; try done.
    by rewrite Hh'.
Qed.

Lemma matches_register s m e :
  matches s m →
  matches
    (Server.set_onclose (Server.heap_next s) (uuid e)
       (Server.set_transports
          <[uuid e := Server.mkSession (Server.heap_next s)
                        (S (Server.heap_next s)) (now e)]>
          (Server.alloc (Server.alloc (Server.log_uuid (uuid e) s)))))
    (ThreeMaps.set_onclose (ThreeMaps.heap_next m) (uuid e)
       (ThreeMaps.set_lastActivity <[uuid e := now e]>
          (ThreeMaps.set_toolkits <[uuid e := S (ThreeMaps.heap_next m)]>
             (ThreeMaps.set_sessions <[uuid e := ThreeMaps.heap_next m]>
                (ThreeMaps.alloc (ThreeMaps.alloc (ThreeMaps.log_uuid (uuid e) m))))))).
Proof.
  intros [Hs Ht Hl Ho Hc Hi Hh Hp]. split; simpl; try done.
  - intros k. rewrite !lookup_insert, Hh. case_decide; [done | apply Hs].
  - intros k. rewrite !lookup_insert, Hh. case_decide; [done | apply Ht].
  - intros k. rewrite !lookup_insert. case_decide; [done | apply Hl].
  - by rewrite Ho, Hh.
  - by rewrite Hi.
  - by rewrite Hh.
Qed.

Lemma matches_forget s m k :
  matches s m →
  matches (Server.set_transports (delete k) s) (ThreeMaps.forget k m).
Proof.
  intros [Hs Ht Hl Ho Hc Hi Hh Hp]. split; simpl; try done.
  - intros k'. rewrite !lookup_delete. case_decide; [done | apply Hs].
  - intros k'. rewrite !lookup_delete. case_decide; [done | apply Ht].
  - intros k'. rewrite !lookup_delete. case_decide; [done | apply Hl].
Qed.

Lemma matches_fire_onclose s m t :
  matches s m → matches (Server.fire_onclose t s) (ThreeMaps.fire_onclose t m).
Proof.
  intros Hm. unfold Server.fire_onclose, ThreeMaps.fire_onclose.
  rewrite (match_onclose _ _ Hm).
  destruct (Server.onclose s !! t); [by apply matches_forget | done].
Qed.

Lemma matches_log_close s m t :
  matches s m → matches (Server.log_close t s) (ThreeMaps.log_close t m).
Proof.
  intros [Hs Ht Hl Ho Hc Hi Hh Hp]. split; simpl; try done.
  intros t'. rewrite !elem_of_cons, Hc. done.
Qed.

Lemma matches_close s m e t :
  matches s m → matches (Server.close e t s) (ThreeMaps.close e t m).
Proof.
  intros Hm. unfold Server.close, ThreeMaps.close.
  destruct (close_notifies e).
  - by apply matches_fire_onclose, matches_log_close.
  - by apply matches_log_close.
Qed.


Lemma same_reply_refl a : same_reply a a.
Proof. split; [done | by left]. Qed.

Lemma matches_post s m r e :
  matches s m → plain r →
  matches (Server.post s r e).1 (ThreeMaps.post m r e).1 ∧
  same_reply (Server.post s r e).2 (ThreeMaps.post m r e).2.
Proof.
  intros Hm Hp. unfold Server.post, ThreeMaps.post, Server.resolve, ThreeMaps.resolve.
  destruct (matches_lookup s m (mcp_session_id r) Hm Hp)
    as [[-> ->]|(k & d & Hh & Hd & -> & ->)].
  - unfold Server.createToolkit, ThreeMaps.createToolkit.
    destruct (truthy_string (RECALL_PRIVATE_KEY e)).
    2:{ split; [exact (matches_grow s m (uuid e) 1 Hm) | apply same_reply_refl]. }
    destruct (connect_ok e).
    2:{ split; [exact (matches_grow s m (uuid e) 2 Hm) | apply same_reply_refl]. }
    pose proof (matches_register s m e Hm) as Hreg.
    pose proof (match_heap _ _ Hm) as Hh.
    destruct (negb _); (split; [exact Hreg|]); simpl;
      unfold Server.hand_over, ThreeMaps.hand_over; simpl; rewrite ?Hh;
      apply same_reply_refl.
  - simpl. pose proof (matches_touch s m k d (now e) Hm (Hp _ Hh) Hd) as Ht.
    destruct (negb _); (split; [exact Ht|]); apply same_reply_refl.
Qed.

Lemma matches_handleSessionRequest s m r e :
  matches s m → plain r →
  matches (Server.handleSessionRequest s r e).1
          (ThreeMaps.handleSessionRequest m r e).1 ∧
  same_reply (Server.handleSessionRequest s r e).2
             (ThreeMaps.handleSessionRequest m r e).2.
Proof.
  intros Hm Hp. unfold Server.handleSessionRequest, ThreeMaps.handleSessionRequest.
  destruct (matches_lookup s m (mcp_session_id r) Hm Hp)
    as [[-> ->]|(k & d & Hh & Hd & -> & ->)].
  - split; [done | apply same_reply_refl].
  - simpl. pose proof (matches_touch s m k d (now e) Hm (Hp _ Hh) Hd) as Ht.
    destruct (method r).
    + destruct (negb _); (split; [exact Ht|]); apply same_reply_refl.
    + split; [exact Ht | apply same_reply_refl].
    + split; [|split; [done | by right]].
      apply matches_forget, matches_close, Ht.
    + split; [exact Ht | apply same_reply_refl].
Qed.

Lemma matches_sweep s m e :
  Server.Inv s → matches s m →
  matches (Server.sweep s e) (ThreeMaps.sweep m e).
Proof.
  intros HI Hm. pose proof Hm as [Hs Ht Hl Ho Hc Hi Hh Hp].
  destruct (ServerFacts.sweep_spec s e HI) as (Hlive & Hgone & Hclosed).
  assert (∀ k t, ThreeMaps.sessions m !! k = Some t →
            ∃ d, Server.transports s !! k = Some d ∧ Server.transport d = t) as Hreg.
  { intros k t. rewrite Hs. destruct (Server.transports s !! k) as [d|]; [|done].
    intros [= <-]. by exists d. }
  assert (∀ k, k ∈ (map_to_list (ThreeMaps.sessions m)).*1 ↔
               is_Some (Server.transports s !! k)) as Hids.
  { intros k. rewrite list_elem_of_fmap. split.
    - intros ([k' t] & -> & Hin%elem_of_map_to_list).
      destruct (Hreg _ _ Hin) as (d & Hd & _). simpl. by rewrite Hd.
    - intros [d Hd]. exists (k, Server.transport d). split; [done|].
      apply elem_of_map_to_list. by rewrite Hs, Hd. }
  assert (∀ k d, Server.transports s !! k = Some d →
            ThreeMaps.expired e m k = Server.expired e d) as Hexp.
  { intros k d Hd. unfold ThreeMaps.expired, Server.expired. by rewrite Hl, Hd. }
  destruct (ThreeMapsFacts.sweep_from_spec e
              (map_to_list (ThreeMaps.sessions m)).*1 m)
    as (Hgone3 & Hlive3 & Hclosed3).
  { apply NoDup_fst_map_to_list. }
  { intros id [d Hd]%Hids. exists (Server.transport d).
    split; [by rewrite Hs, Hd|]. rewrite Ho. by eapply Server.inv_hook. }
  destruct (ThreeMapsMoreFacts.sweep_from_frame e
              (map_to_list (ThreeMaps.sessions m)).*1 m) as (Ho3 & Hi3 & Hh3).
  pose proof (ServerFacts.shrinks_sweep s e) as Hshr.
  assert (∀ k,
            ThreeMaps.sessions (ThreeMaps.sweep m e) !! k =
              Server.transport <$> Server.transports (Server.sweep s e) !! k ∧
            ThreeMaps.toolkits (ThreeMaps.sweep m e) !! k =
              Server.toolkit <$> Server.transports (Server.sweep s e) !! k ∧
            ThreeMaps.lastActivity (ThreeMaps.sweep m e) !! k =
              Server.lastActivity <$> Server.transports (Server.sweep s e) !! k)
    as Hall.
  { intros k. unfold ThreeMaps.sweep.
    destruct (Server.transports s !! k) as [d|] eqn:Hd.
    - destruct (Server.expired e d) eqn:Hx.
      + rewrite (Hgone _ _ Hd Hx).
        apply Hgone3; [apply Hids; by eexists | by rewrite (Hexp _ _ Hd)].
      + rewrite (Hlive _ _ Hd Hx).
        destruct (Hlive3 k) as (-> & -> & ->);
          [intros _; by rewrite (Hexp _ _ Hd)|].
        by rewrite Hs, Ht, Hl, Hd.
    - rewrite (ServerFacts.shrinks_absent _ _ _ Hshr Hd).
      destruct (Hlive3 k) as (-> & -> & ->).
      { intros [d Hd']%Hids. congruence. }
      by rewrite Hs, Ht, Hl, Hd. }
  split.
  - intros k. apply Hall.
  - intros k. apply Hall.
  - intros k. apply Hall.
  - unfold ThreeMaps.sweep. rewrite Ho3, Ho. symmetry.
    apply Server.shrinks_onclose, Hshr.
  - intros t. unfold ThreeMaps.sweep. rewrite Hclosed3, Hclosed, Hc. split.
    + intros [?|(k & [d Hd]%Hids & Hx & Hk)]; [by left|]. right.
      exists k, d. rewrite (Hexp _ _ Hd) in Hx. rewrite Hs, Hd in Hk.
      by injection Hk as <-.
    + intros [?|(k & d & Hd & Hx & <-)]; [by left|]. right. exists k.
      split; [apply Hids; by eexists|].
      split; [by rewrite (Hexp _ _ Hd) | by rewrite Hs, Hd].
  - unfold ThreeMaps.sweep. rewrite Hi3, Hi. symmetry.
    apply Server.shrinks_issued, Hshr.
  - unfold ThreeMaps.sweep. rewrite Hh3, Hh. symmetry.
    apply Server.shrinks_heap, Hshr.
  - rewrite (Server.shrinks_prototype _ _ Hshr). exact Hp.
Qed.

Lemma matches_step s m ev :
  Server.Inv s → matches s m → ThreeMaps.plain_event (three ev) →
  matches (Server.step s ev) (ThreeMaps.step m (three ev)).
Proof.
  intros HI Hm Hp. destruct ev as [r e|r e|e|t]; simpl in *.
  - by apply matches_post.
  - by apply matches_handleSessionRequest.
  - by apply matches_sweep.
  - by apply matches_fire_onclose.
Qed.

(** X15.  The single-object server and the three-object server behave
    alike on every run in which no request names a property of
    [Object.prototype]: after the same events the three objects hold, field
    by field, what the records of [transports] hold, the same onclose
    closures are installed and the same transports closed; and both answer
    a next POST, GET or DELETE with the same headers and the same outcome,
    up to the body of the termination acknowledgment. *)
Theorem both_servers_behave_alike evs r e :
  Forall Server.wf_event evs →
  Forall (λ ev, ThreeMaps.plain_event (three ev)) evs →
  plain r →
  let s := Server.run Server.init evs in
  let m := ThreeMaps.run ThreeMaps.init (three <$> evs) in
  matches s m ∧
  same_reply (Server.post s r e).2 (ThreeMaps.post m r e).2 ∧
  same_reply (Server.handleSessionRequest s r e).2
             (ThreeMaps.handleSessionRequest m r e).2.
Proof.
  intros Hwf Hplain Hr s m.
  assert (matches s m) as Hm.
  { subst s m. generalize matches_init ServerFacts.Inv_init.
    generalize Server.init ThreeMaps.init. revert Hplain.
    induction Hwf as [|ev evs Hev _ IH]; intros Hplain s m Hm HI; simpl; [done|].
    apply Forall_cons in Hplain as [Hp Hplain].
    apply IH; [done | by apply matches_step | by apply ServerFacts.Inv_step]. }
  split; [done|].
  split; [by apply matches_post | by apply matches_handleSessionRequest].
Qed.

Lemma both_servers_behave_alike_witness :
  let evs := [Server.Post (Scenario.json_post None) (Scenario.env 1000 Scenario.id1);
              Server.Tick (Scenario.env 2000 Scenario.id2)] in
  let r := Scenario.delete_request (Some Scenario.id1) in
  let e := Scenario.env 3000 Scenario.id3 in
  same_reply
    (Server.handleSessionRequest (Server.run Server.init evs) r e).2
    (ThreeMaps.handleSessionRequest
       (ThreeMaps.run ThreeMaps.init (three <$> evs)) r e).2.
Proof.
  intros evs r e.
  destruct (both_servers_behave_alike evs r e) as (_ & _ & H).
  - repeat constructor.
  - repeat constructor; intros k Hk; discriminate Hk.
  - intros k [= <-]. reflexivity.
  - exact H.
Defined.

End VariantsFacts.

Module StatelessFacts.
Import Js Http Stateless.

Lemma serve_cases hs s res e :
  (truthy_string (RECALL_PRIVATE_KEY e) = false ∧
   serve hs s res e = (s, mkResponse hs internal_error)) ∨
  (truthy_string (RECALL_PRIVATE_KEY e) = true ∧
   (serve hs s res e).1 =
     mkState (on_close res (S (heap_next s)) (listeners s))
             (S (heap_next s) :: created s) (closed s) (S (S (heap_next s))) ∧
   (serve hs s res e).2 =
     mkResponse hs (if connect_ok e then delegate e (S (heap_next s))
                    else internal_error)).
Proof.
  unfold serve, createToolkit.
  destruct (truthy_string (RECALL_PRIVATE_KEY e)); [right | by left].
  by destruct (connect_ok e).
Qed.

Lemma on_close_lookup res t ls :
  ∃ ts, on_close res t ls !! res = Some ts ∧ t ∈ ts.
Proof.
  unfold on_close. eexists. rewrite lookup_insert_eq. split; [done|].
  apply elem_of_app. right. apply list_elem_of_here.
Qed.

Lemma on_close_keeps res t ls res' ts t' :
  ls !! res' = Some ts → t' ∈ ts →
  ∃ ts', on_close res t ls !! res' = Some ts' ∧ t' ∈ ts'.
Proof.
  intros Hl Hin. unfold on_close. destruct (decide (res = res')) as [->|Hne].
  - rewrite lookup_insert_eq, Hl. eexists. split; [done|].
    apply elem_of_app. by left.
  - rewrite lookup_insert_ne; [|done]. by eexists.
Qed.

Lemma Inv_stateless_init : Inv init.
Proof. split; simpl; by intros t ?%elem_of_nil. Qed.

Lemma Inv_serve hs s res e : Inv s → Inv (serve hs s res e).1.
Proof.
  intros [Hl Hc]. destruct (serve_cases hs s res e) as [[_ ->]|(_ & -> & _)];
    [by split|].
  split; simpl.
  - intros t [->|Hin]%elem_of_cons; [exists res; apply on_close_lookup|].
    destruct (Hl t Hin) as (res' & ts & Hres & Hts).
    exists res'. by eapply on_close_keeps.
  - intros t [->|Hin]%elem_of_cons; [lia|]. apply Hc in Hin. lia.
Qed.

Lemma Inv_stateless_step s ev : Inv s → Inv (step s ev).
Proof.
  intros H. destruct ev as [res r e|res e|res e|res]; simpl;
    [by apply Inv_serve..|]. by destruct H.
Qed.

Lemma Inv_stateless_run evs s : Inv s → Inv (run s evs).
Proof.
  revert s. induction evs as [|ev evs IH]; intros s H; simpl; [done|].
  by apply IH, Inv_stateless_step.
Qed.

(** Listeners stay and the log of closes only grows. *)
Lemma step_monotone s ev :
  (∀ res ts t, listeners s !! res = Some ts → t ∈ ts →
     ∃ ts', listeners (step s ev) !! res = Some ts' ∧ t ∈ ts') ∧
  (∀ t, t ∈ closed s → t ∈ closed (step s ev)).
Proof.
  assert (∀ hs res e,
            (∀ res' ts t, listeners s !! res' = Some ts → t ∈ ts →
               ∃ ts', listeners (serve hs s res e).1 !! res' = Some ts' ∧ t ∈ ts') ∧
            (∀ t, t ∈ closed s → t ∈ closed (serve hs s res e).1)) as Hserve.
  { intros hs res e.
    destruct (serve_cases hs s res e) as [[_ ->]|(_ & -> & _)]; simpl.
    - split; [by eauto | done].
    - split; [|done]. intros res' ts t. apply on_close_keeps. }
  destruct ev as [res r e|res e|res e|res]; simpl; [apply Hserve..|].
  split; [by eauto|]. intros t Ht. apply elem_of_app. by right.
Qed.

Lemma run_monotone evs s :
  (∀ res ts t, listeners s !! res = Some ts → t ∈ ts →
     ∃ ts', listeners (run s evs) !! res = Some ts' ∧ t ∈ ts') ∧
  (∀ t, t ∈ closed s → t ∈ closed (run s evs)).
Proof.
  revert s. induction evs as [|ev evs IH]; intros s; simpl; [by eauto|].
  destruct (step_monotone s ev) as [Hl Hc].
  destruct (IH (step s ev)) as [Hl' Hc']. split.
  - intros res ts t Hres Ht. destruct (Hl _ _ _ Hres Ht) as (ts' & ? & ?). eauto.
  - auto.
Qed.

(** X16.  In the stateless servers every transport ever constructed is
    closed once the response of its request closes, whatever else happens
    before or after, also when [connect] or [handleRequest] failed: the
    listener is on the response before the handler first awaits. *)
Theorem every_transport_is_closed_with_its_response evs t :
  t ∈ created (run init evs) →
  ∃ res, ∀ before after,
    t ∈ closed (run (run init evs) (before ++ ResponseClosed res :: after)).
Proof.
  intros Hin.
  destruct (inv_listened _ (Inv_stateless_run evs init Inv_stateless_init) t Hin)
    as (res & ts & Hres & Hts).
  exists res. intros before after. unfold run at 1. rewrite foldl_app. simpl.
  fold (run (run init evs) before).
  destruct (run_monotone before (run init evs)) as [Hl _].
  destruct (Hl _ _ _ Hres Hts) as (ts' & Hres' & Hts').
  apply run_monotone. unfold response_closed. simpl. rewrite Hres'. simpl.
  apply elem_of_app. left. by apply elem_of_reverse.
Qed.

Lemma every_transport_is_closed_with_its_response_witness :
  let evs := [PlainPost 7 (mkEnv 1000 Scenario.id1 (Some "0xkey") false Completes true)] in
  ∃ res, ∀ before after,
    1%nat ∈ closed (run (run init evs) (before ++ ResponseClosed res :: after)).
Proof.
  intros evs.
  apply (every_transport_is_closed_with_its_response evs 1%nat).
  apply list_elem_of_here.
Defined.

(** X17.  A stateless handler answers with the 500 error, with a response
    written by a transport, or with nothing more.  The transport it hands
    the request to was constructed for this request, was used by no request
    before, and hangs on the close listener of this request's response.
    Without the credential nothing is constructed and the answer is the 500
    error, with whatever headers were set before. *)
Theorem stateless_request_gets_its_own_transport evs hs res e :
  let s := run init evs in
  (outcome (serve hs s res e).2 = internal_error ∨
   outcome (serve hs s res e).2 = Aborted ∨
   ∃ t, outcome (serve hs s res e).2 = Handled t ∧
        (t ∉ created s) ∧ t ∈ created (serve hs s res e).1 ∧
        (∃ ts, listeners (serve hs s res e).1 !! res = Some ts ∧ t ∈ ts)) ∧
  (truthy_string (RECALL_PRIVATE_KEY e) = false →
     serve hs s res e = (s, mkResponse hs internal_error)).
Proof.
  intros s. pose proof (Inv_stateless_run evs init Inv_stateless_init) as HI.
  fold s in HI.
  destruct (serve_cases hs s res e) as [[Hk ->]|(Hk & Hs & Hr)].
  - split; [by left | done].
  - rewrite Hr, Hs. split; [|by rewrite Hk]. simpl.
    destruct (connect_ok e); [|by left]. unfold delegate, caught.
    destruct (handle e) as [|[]]; [|by right; left|by left].
    right. right. eexists. split; [done|]. split.
    + intros Hin. apply (inv_created _ HI) in Hin. lia.
    + split; [apply list_elem_of_here | apply on_close_lookup].
Qed.

Lemma stateless_request_gets_its_own_transport_witness :
  let e := Scenario.env_no_key 1000 Scenario.id1 in
  serve (sse_headers []) (run init []) 7 e =
    (run init [], mkResponse (sse_headers []) internal_error).
Proof.
  intros e.
  apply (proj2 (stateless_request_gets_its_own_transport [] (sse_headers []) 7 e)).
  reflexivity.
Defined.

End StatelessFacts.
